(** * The queue driver of [calyx/queue_call.py]

    [queue_call.py] builds two Calyx components: [raise_err_if_i_eq_MAX_CMDS]
    and [main].  [main] walks over a tape of commands, relays every command
    to a queue component that it receives as an argument, and stores the
    answers of pops and peeks in an answer memory.

    The components are embedded shallowly: registers and memories are the
    fields of a record, every group is a function on that record, and the
    control program is the composition of its groups. *)

From Stdlib Require Import ZArith Bool List Lia Ascii.
From Stdlib Require String.
From stdpp Require Import base list strings pretty.
Import ListNotations.

Local Open Scope Z_scope.

(** ** Constants of the module *)

Definition MAX_CMDS : Z := 15.
Definition ANS_MEM_LEN : Z := 10.

(** ** Primitive cells *)

(** A register of width [w] holds a number below [2 ^ w]. *)
Definition wrap (w x : Z) : Z := x mod 2 ^ w.

(** [seq_mem_d1]: a one-dimensional memory with sequential reads.  A read
    is issued in one group and its result stays on [read_data], from where a
    second group copies it. *)
Record seq_mem_d1 : Type := SeqMem {
  cells : list Z;
  read_data : Z
}.

(** Modelled from the spec: the [seq_mem_d1] primitive is not among the
    sources of the repository.  A read presents the addressed cell on
    [read_data]; a write past the declared size is neither checked nor
    reported and stores nothing.  [main] issues no read past the end of a
    tape of [MAX_CMDS] cells (lemma [reads_in_range]); such a read is given
    the value 0 here. *)
Definition mem_read (m : seq_mem_d1) (addr : Z) : seq_mem_d1 :=
  SeqMem (cells m) (default 0 (cells m !! Z.to_nat addr)).

Definition mem_store (m : seq_mem_d1) (addr data : Z) : seq_mem_d1 :=
  SeqMem (<[Z.to_nat addr := data]> (cells m)) (read_data m).

(** ** The queue component

    [insert_main] takes the queue as an argument.  Its interface is the one
    described in the comments of [insert_main]: inputs [cmd] and [value],
    and the two [ref] registers [ans] and [err]. *)
Record Engine : Type := MkEngine {
  queue_state : Type;
  queue_invoke : queue_state -> Z -> Z -> Z -> bool -> queue_state * Z * bool
}.

(** ** Component [raise_err_if_i_eq_MAX_CMDS] *)

Definition i_eq_max_cmds (in_i : Z) : bool := in_i =? MAX_CMDS.

(** The group [raise_err]: [reg_store(err, 1)]. *)
Definition raise_err (err : bool) : bool := true.

(** The control of the component: [if_with(i_eq_max_cmds, raise_err)].  The
    result is the content of the [ref] register [err] afterwards. *)
Definition raise_err_if_i_eq_max_cmds (in_i : Z) (err : bool) : bool :=
  if i_eq_max_cmds in_i then raise_err err else err.

(** ** Control combinators of the builder *)

Definition seq_ctrl {St : Type} (gs : list (St -> St)) (s : St) : St :=
  fold_left (fun acc g => g acc) gs s.

Definition if_with {St : Type} (port : St -> bool) (body : list (St -> St))
    (s : St) : St :=
  if port s then seq_ctrl body s else s.

(** A [while] may run forever; [fuel] bounds the number of times the
    condition is tested. *)
Fixpoint while_with {St : Type} (fuel : nat) (port : St -> bool)
    (body : list (St -> St)) (s : St) : option St :=
  match fuel with
  | O => None
  | S fuel' =>
      if port s then while_with fuel' port body (seq_ctrl body s) else Some s
  end.

(** ** Component [main] *)

Section Main.

Context (E : Engine).

(** The cells of [main]: the memories [commands], [values] (of [MAX_CMDS]
    cells) and [ans_mem] (of 10 cells), the queue [myqueue], and the
    registers. *)
Record main_state : Type := MainState {
  commands : seq_mem_d1;
  values : seq_mem_d1;
  ans_mem : seq_mem_d1;
  myqueue : queue_state E;
  err : bool;
  ans : Z;
  i : Z;
  j : Z;
  command : Z;
  value : Z
}.

(** [incr_i = main.incr(i, 32)] and [incr_j = main.incr(j, 32)]: the
    registers are 32 bits wide, the sum wraps. *)
Definition incr_i (s : main_state) : main_state :=
  MainState (commands s) (values s) (ans_mem s) (myqueue s) (err s) (ans s)
    (wrap 32 (i s + 1)) (j s) (command s) (value s).

Definition incr_j (s : main_state) : main_state :=
  MainState (commands s) (values s) (ans_mem s) (myqueue s) (err s) (ans s)
    (i s) (wrap 32 (j s + 1)) (command s) (value s).

(** [err_eq_0 = main.eq_use(err.out, 0, 1)]: is the [err] flag down? *)
Definition err_eq_0 (s : main_state) : bool := negb (err s).

(** [cmd_le_1 = main.le_use(cmd.out, 1, 2)] *)
Definition cmd_le_1 (s : main_state) : bool := command s <=? 1.

(** [read_cmd] issues the read of [commands] at [i]; [write_cmd_to_reg]
    copies what came out into the two-bit register [command].  The same two
    groups exist for [values] and the 32-bit register [value]. *)
Definition read_cmd (s : main_state) : main_state :=
  MainState (mem_read (commands s) (i s)) (values s) (ans_mem s) (myqueue s)
    (err s) (ans s) (i s) (j s) (command s) (value s).

Definition write_cmd_to_reg (s : main_state) : main_state :=
  MainState (commands s) (values s) (ans_mem s) (myqueue s) (err s) (ans s)
    (i s) (j s) (wrap 2 (read_data (commands s))) (value s).

Definition read_value (s : main_state) : main_state :=
  MainState (commands s) (mem_read (values s) (i s)) (ans_mem s) (myqueue s)
    (err s) (ans s) (i s) (j s) (command s) (value s).

Definition write_value_to_reg (s : main_state) : main_state :=
  MainState (commands s) (values s) (ans_mem s) (myqueue s) (err s) (ans s)
    (i s) (j s) (command s) (wrap 32 (read_data (values s))).

(** [write_ans = main.mem_store_seq_d1(ans_mem, j.out, ans.out)] *)
Definition write_ans (s : main_state) : main_state :=
  MainState (commands s) (values s) (mem_store (ans_mem s) (j s) (ans s))
    (myqueue s) (err s) (ans s) (i s) (j s) (command s) (value s).

(** [invoke(queue, in_cmd=cmd.out, in_value=value.out, ref_ans=ans, ref_err=err)] *)
Definition invoke_myqueue (s : main_state) : main_state :=
  let '(q, a, e) := queue_invoke E (myqueue s) (command s) (value s) (ans s) (err s) in
  MainState (commands s) (values s) (ans_mem s) q e a
    (i s) (j s) (command s) (value s).

(** [invoke(raise_err_if_i_eq_max_cmds, in_i=i.out, ref_err=err)] *)
Definition invoke_raise_err_if_i_eq_max_cmds (s : main_state) : main_state :=
  MainState (commands s) (values s) (ans_mem s) (myqueue s)
    (raise_err_if_i_eq_max_cmds (i s) (err s)) (ans s)
    (i s) (j s) (command s) (value s).

(** The body of the [while] of [main.control], group by group. *)
Definition loop_body : list (main_state -> main_state) :=
  [ read_cmd;
    write_cmd_to_reg;
    read_value;
    write_value_to_reg;
    invoke_myqueue;
    if_with cmd_le_1 [ write_ans; incr_j ];
    incr_i;
    invoke_raise_err_if_i_eq_max_cmds ].

(** [main.control]: [while_with(err_eq_0, [...])]. *)
Definition main_control (fuel : nat) (s : main_state) : option main_state :=
  while_with fuel err_eq_0 loop_body s.

(** One pass through the body, and the part of it up to and including the
    invocation of the queue. *)
Definition iteration (s : main_state) : main_state := seq_ctrl loop_body s.

Definition dispatch (s : main_state) : main_state :=
  seq_ctrl [ read_cmd; write_cmd_to_reg; read_value; write_value_to_reg;
             invoke_myqueue ] s.

(** The state in which [main] starts: the three external memories hold
    what the environment put there, every register is zero. *)
Definition main_init (cmds vals answers : list Z) (q : queue_state E) : main_state :=
  MainState (SeqMem cmds 0) (SeqMem vals 0) (SeqMem answers 0) q
    false 0 0 0 0 0.

(** [n] passes through the body, whatever the [while] condition says. *)
Fixpoint iterations (n : nat) (s : main_state) : main_state :=
  match n with
  | O => s
  | S n' => iterations n' (iteration s)
  end.

(** The engine raised no error during the first [n] iterations from [s]. *)
Fixpoint engine_quiet (n : nat) (s : main_state) : bool :=
  match n with
  | O => true
  | S n' => negb (err (dispatch s)) && engine_quiet n' (iteration s)
  end.

End Main.

Arguments commands {E} _.
Arguments values {E} _.
Arguments ans_mem {E} _.
Arguments myqueue {E} _.
Arguments err {E} _.
Arguments ans {E} _.
Arguments i {E} _.
Arguments j {E} _.
Arguments command {E} _.
Arguments value {E} _.
Arguments incr_i {E} s.
Arguments incr_j {E} s.
Arguments err_eq_0 {E} s.
Arguments cmd_le_1 {E} s.
Arguments read_cmd {E} s.
Arguments write_cmd_to_reg {E} s.
Arguments read_value {E} s.
Arguments write_value_to_reg {E} s.
Arguments write_ans {E} s.
Arguments invoke_myqueue {E} s.
Arguments invoke_raise_err_if_i_eq_max_cmds {E} s.
Arguments loop_body {E}.
Arguments main_control {E} fuel s.
Arguments iteration {E} s.
Arguments dispatch {E} s.
Arguments iterations {E} n s.
Arguments engine_quiet {E} n s.

(** The commands of the queue interface. *)
Definition Pop : Z := 0.
Definition Peek : Z := 1.
Definition Push : Z := 2.

(** The number of pops and peeks on a tape. *)
Fixpoint pop_peek_count (cmds : list Z) : Z :=
  match cmds with
  | [] => 0
  | c :: cmds' => (if c <=? 1 then 1 else 0) + pop_peek_count cmds'
  end.

(** ** A first-in first-out queue *)

(** Modelled from the spec: the queue handed to [insert_main] is not among
    the sources of the repository.  A pop removes the front element and
    returns it through [ans], a peek returns it and keeps it, and both raise
    [err] on an empty queue; a push appends [value] and raises [err] when the
    queue already holds [capacity] elements.  [err] is never lowered, and a
    command outside the interface changes nothing. *)
Definition fifo_invoke (capacity : nat) (q : list Z) (cmd value ans : Z)
    (err : bool) : list Z * Z * bool :=
  if cmd =? Pop then
    match q with
    | [] => (q, ans, true)
    | x :: q' => (q', x, err)
    end
  else if cmd =? Peek then
    match q with
    | [] => (q, ans, true)
    | x :: _ => (q, x, err)
    end
  else if cmd =? Push then
    if (length q <? capacity)%nat then (q ++ [value], ans, err)
    else (q, ans, true)
  else (q, ans, err).

Definition fifo (capacity : nat) : Engine := MkEngine (list Z) (fifo_invoke capacity).

(** The engine contract on [err]: a raised flag comes back raised. *)
Definition engine_keeps_err (E : Engine) : Prop :=
  forall q cmd value ans, (queue_invoke E q cmd value ans true).2 = true.


(** What is of interest in a state of [main] when it drives [fifo]: the
    contents of the three memories, the queue, the two [ref] registers and
    the two cursors. *)
Definition observes {capacity : nat} (s : main_state (fifo capacity))
    (cmds vals answers : list Z) (q : list Z) (a : Z) (e : bool)
    (ci cj : nat) : Prop :=
  cells (commands s) = cmds /\ cells (values s) = vals /\
  cells (ans_mem s) = answers /\
  myqueue s = q /\ ans s = a /\ err s = e /\
  i s = Z.of_nat ci /\ j s = Z.of_nat cj.

(** ** Sample inputs *)

(** An answer memory of [ANS_MEM_LEN] zeros. *)
Definition blank_answers : list Z := replicate (Z.to_nat ANS_MEM_LEN) 0.

(** Pushes and pops in turn: the queue never overflows nor underflows. *)
Definition tape_push_pop : list Z :=
  [Push; Pop; Push; Pop; Push; Pop; Push; Pop; Push; Pop; Push; Pop; Push; Pop; Push].

Definition operands_count_up : list Z :=
  [1; 2; 3; 4; 5; 6; 7; 8; 9; 10; 11; 12; 13; 14; 15].

(** A pop of the empty queue comes first. *)
Definition tape_pop_first : list Z :=
  [Pop; Push; Push; Push; Push; Push; Push; Push; Push; Push; Push; Push; Push; Push; Push].

(** One push, then peeks only. *)
Definition tape_peeks : list Z :=
  [Push; Peek; Peek; Peek; Peek; Peek; Peek; Peek; Peek; Peek; Peek; Peek; Peek; Peek; Peek].

Definition tape_all_push : list Z :=
  [Push; Push; Push; Push; Push; Push; Push; Push; Push; Push; Push; Push; Push; Push; Push].

(** The scenario [Push, Push, Pop, Peek] with operands [5, 9], on tapes of
    [MAX_CMDS] entries that go on with pops. *)
Definition tape_scenario : list Z :=
  [Push; Push; Pop; Peek; Pop; Pop; Pop; Pop; Pop; Pop; Pop; Pop; Pop; Pop; Pop].

Definition operands_scenario : list Z :=
  [5; 9; 0; 0; 0; 0; 0; 0; 0; 0; 0; 0; 0; 0; 0].

(** ** The answers of a run *)

(** The answers that the first [n] iterations from [s] hand to [write_ans],
    oldest first: the content of [ans] after each invocation of the queue
    with a pop or a peek. *)
Fixpoint recorded {E : Engine} (n : nat) (s : main_state E) : list Z :=
  match n with
  | O => []
  | S n' =>
      (if cmd_le_1 (dispatch s) then [ans (dispatch s)] else [])
      ++ recorded n' (iteration s)
  end.

(** * The benchmark script [run-benchmarks.py] *)

(** ** Strings *)

(** The characters of a string. *)
Definition chars (s : string) : list ascii := String.list_ascii_of_string s.

(** [s.replace(old, new)] for [old] and [new] of one character. *)
Fixpoint str_replace (old new : ascii) (s : string) : string :=
  match s with
  | EmptyString => EmptyString
  | String c s' => String (if Ascii.eqb c old then new else c) (str_replace old new s')
  end.

(** [s.split(sep)] for [sep] of one character. *)
Fixpoint str_split (sep : ascii) (s : string) : list string :=
  match s with
  | EmptyString => [EmptyString]
  | String c s' =>
      if Ascii.eqb c sep then EmptyString :: str_split sep s'
      else match str_split sep s' with
           | [] => [String c EmptyString]
           | part :: parts => String c part :: parts
           end
  end.

(** [pat in s] *)
Fixpoint str_in (pat s : string) : bool :=
  String.prefix pat s ||
  match s with
  | EmptyString => false
  | String _ s' => str_in pat s'
  end.

(** [sep.join(parts)] *)
Fixpoint str_join (sep : string) (parts : list string) : string :=
  match parts with
  | [] => EmptyString
  | [part] => part
  | part :: parts' => part +:+ sep +:+ str_join sep parts'
  end.

Definition newline : string := String "010"%char EmptyString.

(** ** Names of the result files *)

Definition get_csv_filename (name : string) (lowered : bool) : string :=
  (("individual-results/" +:+ str_replace " " "_" name)
   +:+ (if lowered then "-Lowered" else ""))
  +:+ ".csv".

(** ** Running the scripts *)

(** [process_data] runs one subprocess per entry of the dataset; the model
    gives the argument vectors of these subprocesses, in the order in which
    they are run. *)
Definition process_data (dataset : list (string * string)) (is_fully_lowered : bool)
    (path script : string) (sim_num : Z) : list (list string) :=
  map (fun '(name, program) =>
         [ script;
           path +:+ program;
           (path +:+ program) +:+ ".data";
           get_csv_filename name is_fully_lowered;
           pretty sim_num ])
      dataset.

(** ** Gathering the timings *)

(** The exceptions that [gather_data] can end with. *)
Inductive py_error : Type :=
  | FileNotFoundError
  | AssertionError
  | ValueError.

Inductive result (A : Type) : Type :=
  | Ok (a : A)
  | Raise (e : py_error).

Arguments Ok {A} a.
Arguments Raise {A} e.

(** A Python [dict] with string keys: the keys are kept in the order in
    which they were first set. *)
Fixpoint dict_get {V : Type} (k : string) (d : list (string * V)) : option V :=
  match d with
  | [] => None
  | (k', v) :: d' => if String.eqb k k' then Some v else dict_get k d'
  end.

(** [d[k] = v] *)
Fixpoint dict_set {V : Type} (k : string) (v : V) (d : list (string * V))
    : list (string * V) :=
  match d with
  | [] => [(k, v)]
  | (k', v') :: d' =>
      if String.eqb k k' then (k', v) :: d' else (k', v') :: dict_set k v d'
  end.

(** [d[k].append(t)] on a [defaultdict(list)]. *)
Fixpoint dd_append {T : Type} (k : string) (t : T) (d : list (string * list T))
    : list (string * list T) :=
  match d with
  | [] => [(k, [t])]
  | (k', ts) :: d' =>
      if String.eqb k k' then (k', ts ++ [t]) :: d' else (k', ts) :: dd_append k t d'
  end.

Section Gather.

(** The type of the timings and the conversion [float(time)]; the
    conversion gives [None] where Python raises [ValueError]. *)
Context {T : Type} (float : string -> option T).

(** One row of a CSV file, as [csv.reader] gives it, taken apart: the
    assertion on its length, the unpacking of
    [stage_step.split(".")] and the conversion of the time. *)
Definition parse_row (row : list string) : result (string * string * T) :=
  match row with
  | [stage_step; time] =>
      match str_split "." stage_step with
      | [stage; step] =>
          match float time with
          | Some t => Ok (stage, step, t)
          | None => Raise ValueError
          end
      | _ => Raise ValueError
      end
  | _ => Raise AssertionError
  end.

(** The body of the loop over the rows of a file. *)
Definition gather_row (row : list string)
    (acc : list (string * list T) * list (string * list T))
    : result (list (string * list T) * list (string * list T)) :=
  match parse_row row with
  | Raise e => Raise e
  | Ok (stage, step, t) =>
      let '(simtimes, comptimes) := acc in
      if negb (str_in "compile" step)
      then Ok (dd_append stage t simtimes, comptimes)
      else Ok (simtimes, dd_append stage t comptimes)
  end.

Fixpoint gather_rows (rows : list (list string))
    (acc : list (string * list T) * list (string * list T))
    : result (list (string * list T) * list (string * list T)) :=
  match rows with
  | [] => Ok acc
  | row :: rows' =>
      match gather_row row acc with
      | Raise e => Raise e
      | Ok acc' => gather_rows rows' acc'
      end
  end.

(** The loop of [gather_data] over the dataset.  [files] gives the rows of
    the CSV file of a given name, if there is such a file. *)
Fixpoint gather_loop (dataset : list (string * string)) (is_fully_lowered : bool)
    (files : string -> option (list (list string)))
    (acc : list (string * list (string * list T)) * list (string * list (string * list T)))
    : result (list (string * list (string * list T)) *
              list (string * list (string * list T))) :=
  match dataset with
  | [] => Ok acc
  | (name, _) :: dataset' =>
      match files (get_csv_filename name is_fully_lowered) with
      | None => Raise FileNotFoundError
      | Some rows =>
          match gather_rows rows ([], []) with
          | Raise e => Raise e
          | Ok (simtimes, comptimes) =>
              gather_loop dataset' is_fully_lowered files
                (dict_set name simtimes (fst acc), dict_set name comptimes (snd acc))
          end
      end
  end.

Definition gather_data (dataset : list (string * string)) (is_fully_lowered : bool)
    (files : string -> option (list (list string)))
    : result (list (string * list (string * list T)) *
              list (string * list (string * list T))) :=
  gather_loop dataset is_fully_lowered files ([], []).

(** The times of the rows of one stage, in the order of the file: those of
    the compilation steps, or those of the other steps. *)
Fixpoint times_of (stage : string) (compile : bool) (rows : list (string * string * T))
    : list T :=
  match rows with
  | [] => []
  | (stage', step, t) :: rows' =>
      if String.eqb stage stage' && Bool.eqb (str_in "compile" step) compile
      then t :: times_of stage compile rows'
      else times_of stage compile rows'
  end.

End Gather.

(** ** Appending lines to a file *)

(** [write_to_file(data, filename)]: the content of the file afterwards,
    given its content before.  [writelines] receives one string and writes
    its characters one after the other. *)
Definition write_to_file (data : list string) (content : string) : string :=
  content +:+ str_join newline data.

(** ** The benchmark sets of the script *)

Definition datasets : list (string * string) :=
  [ ("NTT 32", "ntt-32.futil");
    ("NTT 64", "ntt-64.futil");
    ("TCAM 32", "tcam-32.futil");
    ("TCAM 64", "tcam-64.futil");
    ("Linear Algebra 2MM", "polybench/linear-algebra-2mm.fuse");
    ("Linear Algebra 3MM", "polybench/linear-algebra-3mm.fuse");
    ("Linear Algebra ATAX", "polybench/linear-algebra-atax.fuse");
    ("Linear Algebra BICG", "polybench/linear-algebra-bicg.fuse");
    ("Linear Algebra DOITGEN", "polybench/linear-algebra-doitgen.fuse");
    ("Linear Algebra DURBIN", "polybench/linear-algebra-durbin.fuse");
    ("Linear Algebra GEMM", "polybench/linear-algebra-gemm.fuse");
    ("Linear Algebra GEMVER", "polybench/linear-algebra-gemver.fuse");
    ("Linear Algebra GESUMMV", "polybench/linear-algebra-gesummv.fuse");
    ("Linear Algebra LU", "polybench/linear-algebra-lu.fuse");
    ("Linear Algebra LUDCMP", "polybench/linear-algebra-ludcmp.fuse");
    ("Linear Algebra MVT", "polybench/linear-algebra-mvt.fuse");
    ("Linear Algebra SYMM", "polybench/linear-algebra-symm.fuse");
    ("Linear Algebra SYR2K", "polybench/linear-algebra-syr2k.fuse");
    ("Linear Algebra SYRK", "polybench/linear-algebra-syrk.fuse");
    ("Linear Algebra TRISOLV", "polybench/linear-algebra-trisolv.fuse");
    ("Linear Algebra TRMM", "polybench/linear-algebra-trmm.fuse");
    ("Linear Algebra Cholesky", "polybench/linear-algebra-cholesky.fuse");
    ("Linear Algebra Gramschmidt", "polybench/linear-algebra-gramschmidt.fuse") ].

Definition lenet : list (string * string) := [ ("LeNet", "big/lenet.futil") ].

(** ** A sample result file *)

(** A stand-in for [float] that keeps the text of the time; the empty
    string is not a number. *)
Definition float_as_text (time : string) : option string :=
  if String.eqb time "" then None else Some time.

Definition sample_rows : list (list string) :=
  [ ["icarus-verilog.simulate"; "0.126"];
    ["verilog.compile"; "1.5"];
    ["icarus-verilog.simulate"; "0.130"];
    ["verilog.simulate"; "0.2"] ].

Definition sample_files (file : string) : option (list (list string)) :=
  if String.eqb file "individual-results/NTT_32.csv" then Some sample_rows else None.

(** * Properties *)

(** ** Registers *)

Lemma wrap32_small (x : Z) : 0 <= x < 4294967296 -> wrap 32 x = x.
Proof. intros H. unfold wrap. now apply Z.mod_small. Qed.

Lemma wrap2_small (x : Z) : 0 <= x < 4 -> wrap 2 x = x.
Proof. intros H. unfold wrap. now apply Z.mod_small. Qed.

Lemma wrap_range (w x : Z) : 0 <= w -> 0 <= wrap w x < 2 ^ w.
Proof. intros H. unfold wrap. apply Z.mod_pos_bound. now apply Z.pow_pos_nonneg. Qed.

(** ** One iteration of [main] *)

Section Iteration.

Context {E : Engine}.
Implicit Types s : main_state E.

Lemma iteration_eq s :
  iteration s =
  invoke_raise_err_if_i_eq_max_cmds
    (incr_i (if_with cmd_le_1 [ write_ans; incr_j ] (dispatch s))).
Proof. reflexivity. Qed.

Lemma dispatch_eq s :
  dispatch s =
  invoke_myqueue (write_value_to_reg (read_value (write_cmd_to_reg (read_cmd s)))).
Proof. reflexivity. Qed.

Ltac open_dispatch s :=
  rewrite (dispatch_eq s); unfold invoke_myqueue; cbn;
  destruct (queue_invoke E _ _ _ _ _) as [[? ?] ?]; cbn.

Lemma dispatch_i s : i (dispatch s) = i s.
Proof. open_dispatch s. reflexivity. Qed.

Lemma dispatch_j s : j (dispatch s) = j s.
Proof. open_dispatch s. reflexivity. Qed.

Lemma dispatch_ans_mem s : ans_mem (dispatch s) = ans_mem s.
Proof. open_dispatch s. reflexivity. Qed.

Lemma dispatch_command s :
  command (dispatch s) = wrap 2 (default 0 (cells (commands s) !! Z.to_nat (i s))).
Proof. open_dispatch s. reflexivity. Qed.

Lemma dispatch_value s :
  value (dispatch s) = wrap 32 (default 0 (cells (values s) !! Z.to_nat (i s))).
Proof. open_dispatch s. reflexivity. Qed.

Lemma dispatch_cells_commands s : cells (commands (dispatch s)) = cells (commands s).
Proof. open_dispatch s. reflexivity. Qed.

Lemma dispatch_cells_values s : cells (values (dispatch s)) = cells (values s).
Proof. open_dispatch s. reflexivity. Qed.

(** The engine sees the latched command and operand and the two [ref]
    registers as they were at the top of the iteration. *)
Lemma dispatch_engine s :
  (myqueue (dispatch s), ans (dispatch s), err (dispatch s)) =
  queue_invoke E (myqueue s)
    (wrap 2 (default 0 (cells (commands s) !! Z.to_nat (i s))))
    (wrap 32 (default 0 (cells (values s) !! Z.to_nat (i s))))
    (ans s) (err s).
Proof. open_dispatch s. reflexivity. Qed.

Ltac open_iteration s :=
  rewrite (iteration_eq s); unfold if_with;
  destruct (cmd_le_1 (dispatch s)); reflexivity.

Lemma iteration_i s : i (iteration s) = wrap 32 (i s + 1).
Proof. rewrite <- (dispatch_i s). open_iteration s. Qed.

Lemma iteration_err s :
  err (iteration s) = raise_err_if_i_eq_max_cmds (wrap 32 (i s + 1)) (err (dispatch s)).
Proof. rewrite <- (dispatch_i s). open_iteration s. Qed.

Lemma iteration_j s :
  j (iteration s) = if cmd_le_1 (dispatch s) then wrap 32 (j s + 1) else j s.
Proof. rewrite <- (dispatch_j s). open_iteration s. Qed.

Lemma iteration_ans_mem s :
  ans_mem (iteration s) =
  if cmd_le_1 (dispatch s) then mem_store (ans_mem s) (j s) (ans (dispatch s))
  else ans_mem s.
Proof. rewrite <- (dispatch_j s), <- (dispatch_ans_mem s). open_iteration s. Qed.

Lemma iteration_cells_commands s : cells (commands (iteration s)) = cells (commands s).
Proof. rewrite <- (dispatch_cells_commands s). open_iteration s. Qed.

Lemma iteration_cells_values s : cells (values (iteration s)) = cells (values s).
Proof. rewrite <- (dispatch_cells_values s). open_iteration s. Qed.

Lemma iteration_myqueue s : myqueue (iteration s) = myqueue (dispatch s).
Proof. open_iteration s. Qed.

Lemma iteration_ans s : ans (iteration s) = ans (dispatch s).
Proof. open_iteration s. Qed.

(** The iteration up to the invocation of the ceiling check. *)
Lemma before_check_err s :
  err (incr_i (if_with cmd_le_1 [ write_ans; incr_j ] (dispatch s))) = err (dispatch s).
Proof. unfold if_with. now destruct (cmd_le_1 (dispatch s)). Qed.

Lemma before_check_i s :
  i (incr_i (if_with cmd_le_1 [ write_ans; incr_j ] (dispatch s))) = wrap 32 (i s + 1).
Proof.
  rewrite <- (dispatch_i s). unfold if_with. now destruct (cmd_le_1 (dispatch s)).
Qed.

Lemma iterations_succ_r n s : iterations (S n) s = iteration (iterations n s).
Proof.
  revert s. induction n as [|n IH]; intros s; [reflexivity|].
  change (iterations (S (S n)) s) with (iterations (S n) (iteration s)).
  now rewrite IH.
Qed.

Lemma iterations_add n m s : iterations (n + m) s = iterations m (iterations n s).
Proof. revert s. induction n as [|n IH]; intros s; [reflexivity|]. apply IH. Qed.

Lemma iterations_cells_commands n s :
  cells (commands (iterations n s)) = cells (commands s).
Proof.
  induction n as [|n IH]; [reflexivity|].
  now rewrite iterations_succ_r, iteration_cells_commands.
Qed.

Lemma iterations_cells_values n s :
  cells (values (iterations n s)) = cells (values s).
Proof.
  induction n as [|n IH]; [reflexivity|].
  now rewrite iterations_succ_r, iteration_cells_values.
Qed.

End Iteration.

(** ** The loop of [main] *)

Section Loop.

Context {E : Engine}.
Implicit Types s : main_state E.

(** The [while] leaves after [n] iterations when [err] is first seen raised
    at the top of iteration [n]. *)
Lemma main_control_iterations n : forall fuel s,
  (forall k, (k < n)%nat -> err (iterations k s) = false) ->
  err (iterations n s) = true ->
  (n < fuel)%nat ->
  main_control fuel s = Some (iterations n s).
Proof.
  induction n as [|n IH]; intros fuel s Hlow Hn Hfuel;
    (destruct fuel as [|fuel]; [lia|]);
    unfold main_control; cbn [while_with]; unfold err_eq_0.
  - cbn in Hn. now rewrite Hn.
  - pose proof (Hlow O ltac:(lia)) as H0. cbn [iterations] in H0.
    rewrite H0. cbn [negb].
    apply IH; [|exact Hn|lia].
    intros k Hk. apply (Hlow (S k)). lia.
Qed.

Lemma main_control_inv fuel : forall s s',
  main_control fuel s = Some s' ->
  exists n, (n < fuel)%nat /\ s' = iterations n s /\ err s' = true /\
            forall k, (k < n)%nat -> err (iterations k s) = false.
Proof.
  induction fuel as [|fuel IH]; intros s s' H; [discriminate|].
  unfold main_control in H; cbn [while_with] in H. unfold err_eq_0 in H.
  destruct (err s) eqn:He; cbn [negb] in H.
  - injection H as <-. exists O. repeat split; [lia|exact He|lia].
  - destruct (IH _ _ H) as (n & Hn & -> & Herr & Hlow).
    exists (S n). repeat split; [lia|exact Herr|].
    intros [|k] Hk; [exact He|]. apply Hlow. lia.
Qed.

Lemma main_control_running fuel : forall s,
  (forall k, (k < fuel)%nat -> err (iterations k s) = false) ->
  main_control fuel s = None.
Proof.
  induction fuel as [|fuel IH]; intros s Hlow; [reflexivity|].
  unfold main_control; cbn [while_with]. unfold err_eq_0.
  pose proof (Hlow O ltac:(lia)) as H0. cbn [iterations] in H0.
  rewrite H0. cbn [negb]. apply IH.
  intros k Hk. apply (Hlow (S k)). lia.
Qed.

Lemma main_control_err fuel s s' : main_control fuel s = Some s' -> err s' = true.
Proof. intros H. now destruct (main_control_inv _ _ _ H) as (? & ? & ? & ? & ?). Qed.

Lemma main_control_fuel fuel fuel' s s' :
  main_control fuel s = Some s' -> (fuel <= fuel')%nat ->
  main_control fuel' s = Some s'.
Proof.
  intros H Hle. destruct (main_control_inv _ _ _ H) as (n & Hn & -> & Herr & Hlow).
  apply main_control_iterations; [exact Hlow|exact Herr|lia].
Qed.

Lemma main_control_det fuel fuel' s s1 s2 :
  main_control fuel s = Some s1 -> main_control fuel' s = Some s2 -> s1 = s2.
Proof.
  intros H1 H2.
  apply (main_control_fuel _ (Nat.max fuel fuel')) in H1; [|lia].
  apply (main_control_fuel _ (Nat.max fuel fuel')) in H2; [|lia].
  congruence.
Qed.

(** The first iteration at whose end [err] is up. *)
Lemma first_raise s m :
  (exists n, (n <= m)%nat /\ err (iterations n s) = true /\
             forall k, (k < n)%nat -> err (iterations k s) = false)
  \/ (forall k, (k <= m)%nat -> err (iterations k s) = false).
Proof.
  induction m as [|m [(n & Hn & Hup & Hlow)|Hdown]].
  - destruct (err s) eqn:He.
    + left. exists O. repeat split; [lia|exact He|lia].
    + right. intros k Hk. now replace k with O by lia.
  - left. exists n. repeat split; [lia|exact Hup|exact Hlow].
  - destruct (err (iterations (S m) s)) eqn:He.
    + left. exists (S m). repeat split; [lia|exact He|].
      intros k Hk. apply Hdown. lia.
    + right. intros k Hk.
      destruct (decide (k = S m)) as [->|Hne]; [exact He|apply Hdown; lia].
Qed.

(** The command cursor counts the iterations. *)
Lemma iterations_i n s :
  0 <= i s -> i s + Z.of_nat n < 4294967296 ->
  i (iterations n s) = i s + Z.of_nat n.
Proof.
  intros H0. induction n as [|n IH]; intros Hn; [cbn; lia|].
  rewrite iterations_succ_r, iteration_i, IH by lia.
  rewrite wrap32_small; lia.
Qed.

Lemma raise_err_if_i_eq_max_cmds_keeps (index : Z) (e : bool) :
  e = true -> raise_err_if_i_eq_max_cmds index e = true.
Proof.
  intros ->. unfold raise_err_if_i_eq_max_cmds. now destruct (i_eq_max_cmds index).
Qed.

Lemma iteration_err_ceiling s : i s = MAX_CMDS - 1 -> err (iteration s) = true.
Proof. intros Hi. rewrite iteration_err, Hi. reflexivity. Qed.

Lemma iteration_err_below s :
  0 <= i s < MAX_CMDS - 1 -> err (iteration s) = err (dispatch s).
Proof.
  intros Hi. rewrite iteration_err, wrap32_small by (unfold MAX_CMDS in Hi; lia).
  unfold raise_err_if_i_eq_max_cmds, i_eq_max_cmds.
  destruct (Z.eqb_spec (i s + 1) MAX_CMDS) as [Heq|Hne]; [lia|reflexivity].
Qed.

Lemma engine_quiet_spec n : forall s,
  engine_quiet n s = true <->
  forall k, (k < n)%nat -> err (dispatch (iterations k s)) = false.
Proof.
  induction n as [|n IH]; intros s; cbn [engine_quiet].
  - split; [intros _ k Hk; lia|reflexivity].
  - rewrite andb_true_iff, negb_true_iff, IH. split.
    + intros [H0 Hk] [|k] Hlt; [exact H0|]. apply Hk. lia.
    + intros H. split; [apply (H O); lia|].
      intros k Hk. apply (H (S k)). lia.
Qed.

End Loop.

(** ** Runs from the initial state *)

Lemma pop_peek_count_app (l1 l2 : list Z) :
  pop_peek_count (l1 ++ l2) = pop_peek_count l1 + pop_peek_count l2.
Proof. induction l1 as [|c l1 IH]; cbn [pop_peek_count app]; lia. Qed.

Lemma pop_peek_count_bounds (l : list Z) :
  0 <= pop_peek_count l <= Z.of_nat (length l).
Proof.
  induction l as [|c l IH]; cbn [pop_peek_count length]; [lia|].
  destruct (c <=? 1); lia.
Qed.

Section Run.

Context {E : Engine}.
Context (cmds vals answers : list Z) (q : queue_state E).

Local Abbreviation s0 := (main_init E cmds vals answers q).

Lemma run_i n : (n <= 15)%nat -> i (iterations n s0) = Z.of_nat n.
Proof. intros Hn. rewrite iterations_i; cbn; lia. Qed.

Lemma run_command n :
  (n < 15)%nat ->
  command (dispatch (iterations n s0)) = wrap 2 (default 0 (cmds !! n)).
Proof.
  intros Hn.
  now rewrite dispatch_command, iterations_cells_commands, run_i, Nat2Z.id by lia.
Qed.

Lemma run_err_ceiling : err (iterations 15 s0) = true.
Proof.
  rewrite (iterations_succ_r 14). apply iteration_err_ceiling.
  now rewrite run_i by lia.
Qed.

Lemma run_err_quiet n :
  engine_quiet n s0 = true ->
  forall k, (k <= n)%nat -> (k < 15)%nat -> err (iterations k s0) = false.
Proof.
  intros Hq k. induction k as [|k IH]; intros Hk Hlt; [reflexivity|].
  rewrite iterations_succ_r, iteration_err_below.
  - apply (proj1 (engine_quiet_spec n s0) Hq). lia.
  - rewrite run_i by lia. unfold MAX_CMDS. lia.
Qed.

(** The answer cursor counts the pops and peeks consumed so far. *)
Lemma run_j n :
  (n <= 15)%nat -> (n <= length cmds)%nat ->
  j (iterations n s0) = pop_peek_count (map (wrap 2) (take n cmds)).
Proof.
  induction n as [|n IH]; intros Hn Hlen; [reflexivity|].
  destruct (lookup_lt_is_Some_2 cmds n ltac:(lia)) as [c Hc].
  rewrite (take_S_r _ _ _ Hc), map_app, pop_peek_count_app.
  rewrite iterations_succ_r, iteration_j, IH by lia.
  unfold cmd_le_1. rewrite run_command, Hc by lia.
  cbn [default from_option map pop_peek_count]. unfold id.
  pose proof (pop_peek_count_bounds (map (wrap 2) (take n cmds))) as Hb.
  rewrite length_map, length_take in Hb.
  destruct (wrap 2 c <=? 1); [rewrite wrap32_small|]; lia.
Qed.

Lemma map_wrap2_id (l : list Z) :
  Forall (fun c => 0 <= c < 4) l -> map (wrap 2) l = l.
Proof.
  induction 1 as [|c l Hc _ IH]; [reflexivity|].
  cbn [map]. now rewrite wrap2_small, IH.
Qed.

End Run.

(** ** The ceiling check *)

(** C4: for every index and every incoming value of [err], the component
    [raise_err_if_i_eq_MAX_CMDS] raises [err] when the index equals
    [MAX_CMDS] and leaves it as it was otherwise; it never lowers it. *)
Theorem raise_err_if_i_eq_max_cmds_spec (index : Z) (e : bool) :
  (index = MAX_CMDS -> raise_err_if_i_eq_max_cmds index e = true) /\
  (index <> MAX_CMDS -> raise_err_if_i_eq_max_cmds index e = e) /\
  (raise_err_if_i_eq_max_cmds index e = false -> e = false) /\
  raise_err_if_i_eq_max_cmds index true = true.
Proof.
  unfold raise_err_if_i_eq_max_cmds, i_eq_max_cmds, raise_err.
  destruct (Z.eqb_spec index MAX_CMDS) as [Heq|Hne]; repeat split;
    intros; congruence.
Qed.

(** ** Termination *)

(** The first iteration that ends with [err] raised is among the first
    [MAX_CMDS]; the loop runs up to it and stops there. *)
Lemma run_stops {E : Engine} (cmds vals answers : list Z) (q : queue_state E) :
  exists n : nat,
    (n <= 15)%nat /\
    (forall fuel, (n < fuel)%nat ->
       main_control fuel (main_init E cmds vals answers q)
       = Some (iterations n (main_init E cmds vals answers q))) /\
    (forall k, (k < n)%nat ->
       err (iterations k (main_init E cmds vals answers q)) = false) /\
    err (iterations n (main_init E cmds vals answers q)) = true.
Proof.
  destruct (first_raise (main_init E cmds vals answers q) 15)
    as [(n & Hn & Hup & Hlow)|Hdown].
  - exists n. repeat split; try assumption.
    intros fuel Hfuel. now apply main_control_iterations.
  - pose proof (run_err_ceiling cmds vals answers q) as Hup.
    rewrite Hdown in Hup by lia. discriminate.
Qed.

(** An iteration that the loop enters within the first [MAX_CMDS] reads
    the tapes below [MAX_CMDS]. *)
Lemma reads_in_range {E : Engine} (cmds vals answers : list Z) (q : queue_state E)
    (k : nat) :
  err (iterations k (main_init E cmds vals answers q)) = false ->
  (k <= 15)%nat ->
  0 <= i (iterations k (main_init E cmds vals answers q)) < MAX_CMDS.
Proof.
  intros Hdown Hk. rewrite run_i by exact Hk.
  destruct (decide (k = 15%nat)) as [->|Hne]; [|unfold MAX_CMDS; lia].
  rewrite run_err_ceiling in Hdown. discriminate.
Qed.

(** C6: whatever the tapes and whatever the engine does, the loop of [main]
    ends after at most [MAX_CMDS] iterations: the command cursor [i] grows by
    one in every iteration, and the iteration that takes it to [MAX_CMDS]
    raises [err]. *)
Theorem main_terminates (E : Engine) (cmds vals answers : list Z) (q : queue_state E) :
  exists n : nat,
    (n <= Z.to_nat MAX_CMDS)%nat /\
    (forall fuel, (n < fuel)%nat ->
       main_control fuel (main_init E cmds vals answers q)
       = Some (iterations n (main_init E cmds vals answers q))) /\
    (forall k, (k < n)%nat ->
       err_eq_0 (iterations k (main_init E cmds vals answers q)) = true) /\
    err_eq_0 (iterations n (main_init E cmds vals answers q)) = false /\
    (forall k, (k <= n)%nat ->
       i (iterations k (main_init E cmds vals answers q)) = Z.of_nat k) /\
    (forall s : main_state E, i (iteration s) = wrap 32 (i s + 1)) /\
    (forall s : main_state E, i s + 1 = MAX_CMDS -> err (iteration s) = true).
Proof.
  destruct (run_stops cmds vals answers q) as (n & Hn & Hstop & Hlow & Hup).
  exists n. repeat split.
  - exact Hn.
  - exact Hstop.
  - intros k Hk. unfold err_eq_0. now rewrite Hlow.
  - unfold err_eq_0. now rewrite Hup.
  - intros k Hk. apply run_i. lia.
  - apply iteration_i.
  - intros s Hs. apply iteration_err_ceiling. lia.
Qed.

(** ** The error flag *)

Lemma invoke_myqueue_keeps_err (E : Engine) (s : main_state E) :
  engine_keeps_err E -> err s = true -> err (invoke_myqueue s) = true.
Proof.
  intros HE Hs. unfold invoke_myqueue. rewrite Hs.
  specialize (HE (myqueue s) (command s) (value s) (ans s)).
  destruct (queue_invoke E _ _ _ _ _) as [[? ?] ?]. exact HE.
Qed.

Lemma iteration_keeps_err (E : Engine) (s : main_state E) :
  engine_keeps_err E -> err s = true -> err (iteration s) = true.
Proof.
  intros HE Hs. rewrite iteration_err.
  apply raise_err_if_i_eq_max_cmds_keeps.
  rewrite dispatch_eq. now apply invoke_myqueue_keeps_err.
Qed.

(** C5: with an engine that hands a raised [err] back raised, no group of
    [main] and no invocation lowers [err]: once it is up it is up after every
    later step and after every later iteration. *)
Theorem err_sticky (E : Engine) (s : main_state E) :
  engine_keeps_err E ->
  err s = true ->
  Forall (fun g : main_state E -> main_state E => err (g s) = true)
    [ read_cmd; write_cmd_to_reg; read_value; write_value_to_reg;
      invoke_myqueue; write_ans; incr_j; if_with cmd_le_1 [ write_ans; incr_j ];
      incr_i; invoke_raise_err_if_i_eq_max_cmds ] /\
  (forall n, err (iterations n s) = true).
Proof.
  intros HE Hs. split.
  - repeat match goal with |- Forall _ _ => constructor end; try exact Hs.
    + now apply invoke_myqueue_keeps_err.
    + unfold if_with. destruct (cmd_le_1 s); exact Hs.
    + cbn [err invoke_raise_err_if_i_eq_max_cmds].
      now apply raise_err_if_i_eq_max_cmds_keeps.
  - intros n. induction n as [|n IH]; [exact Hs|].
    rewrite iterations_succ_r. now apply iteration_keeps_err.
Qed.

Lemma fifo_keeps_err (capacity : nat) : engine_keeps_err (fifo capacity).
Proof.
  intros q cmd v a. cbn. unfold fifo_invoke.
  destruct (cmd =? Pop); [now destruct q|].
  destruct (cmd =? Peek); [now destruct q|].
  destruct (cmd =? Push); [|reflexivity].
  now destruct (length q <? capacity)%nat.
Qed.

Lemma err_sticky_witness :
  engine_keeps_err (fifo 10) /\
  err (iteration (main_init (fifo 10) tape_pop_first operands_count_up blank_answers []))
  = true /\
  forall n,
    err (iterations n
           (iteration (main_init (fifo 10) tape_pop_first operands_count_up
                         blank_answers [])))
    = true.
Proof.
  split; [apply fifo_keeps_err|]. split; [reflexivity|].
  apply (err_sticky (fifo 10)); [apply fifo_keeps_err|reflexivity].
Defined.

(** ** Recording the answers *)

(** C1: in an iteration whose latched command is a pop or a peek, the answer
    that the engine left in [ans] is stored in [ans_mem] at address [j] and
    [j] is incremented.  Nothing is asked of [err]: the store and the
    increment take place also when the engine raised [err] in this very
    iteration. *)
Theorem record_on_pop_or_peek (E : Engine) (s : main_state E) :
  command (dispatch s) = Pop \/ command (dispatch s) = Peek ->
  ans_mem (iteration s) = mem_store (ans_mem s) (j s) (ans (dispatch s)) /\
  j (iteration s) = wrap 32 (j s + 1) /\
  ((Z.to_nat (j s) < length (cells (ans_mem s)))%nat ->
   cells (ans_mem (iteration s)) !! Z.to_nat (j s) = Some (ans (dispatch s))).
Proof.
  intros Hcmd.
  assert (cmd_le_1 (dispatch s) = true) as Hle.
  { unfold cmd_le_1. apply Z.leb_le. unfold Pop, Peek in Hcmd. lia. }
  rewrite iteration_ans_mem, iteration_j, Hle. repeat split.
  intros Hj. cbn [mem_store cells]. now apply list_lookup_insert_eq.
Qed.

(** The witness is an iteration in which the engine raises [err]: a pop of
    the empty queue. *)
Lemma record_on_pop_or_peek_witness :
  err (dispatch (main_init (fifo 10) tape_pop_first operands_count_up blank_answers []))
  = true /\
  command (dispatch (main_init (fifo 10) tape_pop_first operands_count_up blank_answers []))
  = Pop /\
  j (iteration (main_init (fifo 10) tape_pop_first operands_count_up blank_answers []))
  = 1.
Proof.
  split; [reflexivity|]. split; [reflexivity|].
  apply (record_on_pop_or_peek (fifo 10)
           (main_init (fifo 10) tape_pop_first operands_count_up blank_answers [])).
  left. reflexivity.
Defined.

Lemma iterations_skip_record {E : Engine} (cmds vals answers : list Z)
    (q : queue_state E) (n : nat) :
  (n <= 15)%nat -> (n <= length cmds)%nat ->
  Forall (fun c => c = 2 \/ c = 3) (take n cmds) ->
  ans_mem (iterations n (main_init E cmds vals answers q)) = SeqMem answers 0 /\
  j (iterations n (main_init E cmds vals answers q)) = 0.
Proof.
  induction n as [|n IH]; intros Hn Hlen Hall; [split; reflexivity|].
  destruct (lookup_lt_is_Some_2 cmds n ltac:(lia)) as [c Hc].
  rewrite (take_S_r _ _ _ Hc) in Hall. apply Forall_app in Hall as [Hall Hlast].
  destruct (IH ltac:(lia) ltac:(lia) Hall) as [IHa IHj].
  rewrite Forall_singleton in Hlast.
  assert (cmd_le_1 (dispatch (iterations n (main_init E cmds vals answers q))) = false)
    as Hgt.
  { unfold cmd_le_1. rewrite run_command, Hc by lia. cbn [default from_option].
    unfold id. apply Z.leb_gt. rewrite wrap2_small; lia. }
  now rewrite iterations_succ_r, iteration_ans_mem, iteration_j, Hgt.
Qed.

(** C10: an iteration whose latched command is above 1 (a push, or the
    fourth two-bit code) leaves [ans_mem] and [j] as they were; so while the
    tape holds such commands only, and in particular on a tape of pushes, the
    answer memory is never written and [j] stays 0, up to the end of the run. *)
Theorem record_skipped_above_peek (E : Engine) (cmds vals answers : list Z)
    (q : queue_state E) (n : nat) :
  (n <= Z.to_nat MAX_CMDS)%nat ->
  (n <= length cmds)%nat ->
  Forall (fun c => c = 2 \/ c = 3) (take n cmds) ->
  (forall s : main_state E,
     1 < command (dispatch s) ->
     ans_mem (iteration s) = ans_mem s /\ j (iteration s) = j s) /\
  (forall m, (m <= n)%nat ->
     ans_mem (iterations m (main_init E cmds vals answers q)) = SeqMem answers 0 /\
     j (iterations m (main_init E cmds vals answers q)) = 0) /\
  (n = Z.to_nat MAX_CMDS ->
   exists s', main_control 16 (main_init E cmds vals answers q) = Some s' /\
              ans_mem s' = SeqMem answers 0 /\ j s' = 0).
Proof.
  intros Hn Hlen Hall. change (Z.to_nat MAX_CMDS) with 15%nat in *.
  assert (forall m, (m <= n)%nat ->
     ans_mem (iterations m (main_init E cmds vals answers q)) = SeqMem answers 0 /\
     j (iterations m (main_init E cmds vals answers q)) = 0) as Hrun.
  { intros m Hm. apply iterations_skip_record; [lia|lia|].
    replace m with (Nat.min m n) by lia. rewrite <- take_take.
    now apply Forall_take. }
  split; [|split; [exact Hrun|]].
  - intros s Hs. rewrite iteration_ans_mem, iteration_j.
    unfold cmd_le_1. now rewrite (proj2 (Z.leb_gt _ _) Hs).
  - intros ->.
    destruct (run_stops cmds vals answers q) as (m & Hm & Hstop & _).
    exists (iterations m (main_init E cmds vals answers q)).
    split; [apply Hstop; lia|]. apply Hrun. lia.
Qed.

Lemma record_skipped_above_peek_witness :
  exists s',
    main_control 16 (main_init (fifo 10) tape_all_push operands_count_up blank_answers [])
    = Some s' /\
    ans_mem s' = SeqMem blank_answers 0 /\ j s' = 0.
Proof.
  apply (record_skipped_above_peek (fifo 10) tape_all_push operands_count_up
           blank_answers [] 15).
  - vm_compute. lia.
  - vm_compute. lia.
  - repeat constructor.
  - reflexivity.
Defined.

(** ** The answer memory below the answer cursor *)

Lemma iterations_keep_answers {E : Engine} (n : nat) : forall (s : main_state E) (m : nat),
  (m <= Z.to_nat (j s))%nat -> 0 <= j s -> j s + Z.of_nat n < 4294967296 ->
  take m (cells (ans_mem (iterations n s))) = take m (cells (ans_mem s)).
Proof.
  induction n as [|n IH]; intros s m Hm Hj Hn; [reflexivity|].
  cbn [iterations].
  assert (j s <= j (iteration s) <= j s + 1) as Hstep.
  { rewrite iteration_j. destruct (cmd_le_1 (dispatch s)); [|lia].
    rewrite wrap32_small; lia. }
  rewrite IH by lia.
  rewrite iteration_ans_mem. destruct (cmd_le_1 (dispatch s)); [|reflexivity].
  cbn [mem_store cells]. now apply take_insert_ge.
Qed.

(** Where a run ends, given that [err] is still down after [n] iterations:
    some iterations later, with the answers below [j] as they were. *)
Lemma main_control_after {E : Engine} (cmds vals answers : list Z)
    (q : queue_state E) (n m : nat) :
  (forall k, (k <= n)%nat -> err (iterations k (main_init E cmds vals answers q)) = false) ->
  (m <= Z.to_nat (j (iterations n (main_init E cmds vals answers q))))%nat ->
  0 <= j (iterations n (main_init E cmds vals answers q)) <= Z.of_nat n ->
  exists s', main_control 16 (main_init E cmds vals answers q) = Some s' /\
    err s' = true /\ Z.of_nat n < i s' <= MAX_CMDS /\
    take m (cells (ans_mem s'))
    = take m (cells (ans_mem (iterations n (main_init E cmds vals answers q)))).
Proof.
  intros Hlow Hm Hj.
  destruct (run_stops cmds vals answers q) as (t & Ht & Hstop & _ & Hup).
  assert (n < t)%nat as Hlt.
  { destruct (le_lt_dec t n) as [Hle|]; [|assumption].
    rewrite (Hlow t Hle) in Hup. discriminate. }
  exists (iterations t (main_init E cmds vals answers q)). split; [apply Hstop; lia|].
  split; [exact Hup|].
  split; [rewrite run_i by lia; unfold MAX_CMDS; lia|].
  replace t with (n + (t - n))%nat by lia.
  rewrite iterations_add. apply iterations_keep_answers; lia.
Qed.

(** ** [main] in front of the first-in first-out queue *)

Section FifoDriver.

Context {capacity : nat}.
Implicit Types s : main_state (fifo capacity).

Lemma observes_init cmds vals answers :
  observes (main_init (fifo capacity) cmds vals answers []) cmds vals answers
    [] 0 false 0 0.
Proof. repeat split. Qed.

Lemma fifo_dispatch s c :
  cells (commands s) !! Z.to_nat (i s) = Some c ->
  0 <= c < 4 ->
  command (dispatch s) = c /\
  (myqueue (dispatch s), ans (dispatch s), err (dispatch s))
  = fifo_invoke capacity (myqueue s) c (value (dispatch s)) (ans s) (err s).
Proof.
  intros Hc Hrange. rewrite dispatch_engine, dispatch_command, dispatch_value, Hc.
  cbn [default from_option]. unfold id. now rewrite wrap2_small.
Qed.

Lemma observes_step s cmds vals answers q a e ci cj c q' a' e' :
  observes s cmds vals answers q a e ci cj ->
  cmds !! ci = Some c ->
  0 <= c < 4 ->
  fifo_invoke capacity q c (value (dispatch s)) a e = (q', a', e') ->
  (ci < 14)%nat ->
  (cj < 15)%nat ->
  observes (iteration s) cmds vals
    (if c <=? 1 then <[cj := a']> answers else answers) q' a' e'
    (S ci) (if c <=? 1 then S cj else cj).
Proof.
  intros (Hcm & Hvm & Ham & Hq & Ha & He & Hi & Hj) Hc Hrange Hinv Hci Hcj.
  destruct (fifo_dispatch s c) as [Hcmd Hdisp]; [|exact Hrange|].
  { now rewrite Hcm, Hi, Nat2Z.id. }
  rewrite Hq, Ha, He, Hinv in Hdisp. injection Hdisp as Hq' Ha' He'.
  unfold observes.
  rewrite iteration_cells_commands, iteration_cells_values, iteration_ans_mem,
    iteration_myqueue, iteration_ans, iteration_err, iteration_i, iteration_j.
  unfold cmd_le_1. rewrite Hcmd, Hq', Ha', He', Hi, Hj.
  rewrite wrap32_small by lia.
  repeat split; try assumption.
  - destruct (c <=? 1); [|exact Ham].
    cbn [mem_store cells]. now rewrite Ham, Nat2Z.id.
  - unfold raise_err_if_i_eq_max_cmds, i_eq_max_cmds.
    destruct (Z.eqb_spec (Z.of_nat ci + 1) MAX_CMDS) as [Heq|]; [|reflexivity].
    unfold MAX_CMDS in Heq. lia.
  - lia.
  - destruct (c <=? 1); [rewrite wrap32_small|]; lia.
Qed.

Lemma observes_push s cmds vals answers q a ci cj v :
  observes s cmds vals answers q a false ci cj ->
  cmds !! ci = Some Push ->
  vals !! ci = Some v ->
  0 <= v < 4294967296 ->
  (length q < capacity)%nat ->
  (ci < 14)%nat ->
  (cj < 15)%nat ->
  observes (iteration s) cmds vals answers (q ++ [v]) a false (S ci) cj.
Proof.
  intros Hobs Hc Hv Hrange Hcap Hci Hcj.
  apply (observes_step s cmds vals answers q a false ci cj Push (q ++ [v]) a false);
    try assumption; [unfold Push; lia|].
  destruct Hobs as (_ & Hvm & _ & _ & _ & _ & Hi & _).
  rewrite dispatch_value, Hvm, Hi, Nat2Z.id, Hv.
  cbn [default from_option]. unfold id. rewrite wrap32_small by lia.
  unfold fifo_invoke. cbn [Z.eqb Push Pop Peek].
  now rewrite (proj2 (Nat.ltb_lt _ _) Hcap).
Qed.

Lemma observes_pop s cmds vals answers x q a ci cj :
  observes s cmds vals answers (x :: q) a false ci cj ->
  cmds !! ci = Some Pop ->
  (ci < 14)%nat ->
  (cj < 15)%nat ->
  observes (iteration s) cmds vals (<[cj := x]> answers) q x false (S ci) (S cj).
Proof.
  intros Hobs Hc Hci Hcj.
  apply (observes_step s cmds vals answers (x :: q) a false ci cj Pop q x false);
    try assumption; [unfold Pop; lia|reflexivity].
Qed.

Lemma observes_peek s cmds vals answers x q a ci cj :
  observes s cmds vals answers (x :: q) a false ci cj ->
  cmds !! ci = Some Peek ->
  (ci < 14)%nat ->
  (cj < 15)%nat ->
  observes (iteration s) cmds vals (<[cj := x]> answers) (x :: q) x false (S ci) (S cj).
Proof.
  intros Hobs Hc Hci Hcj.
  apply (observes_step s cmds vals answers (x :: q) a false ci cj Peek (x :: q) x false);
    try assumption; [unfold Peek; lia|reflexivity].
Qed.

Lemma observes_err s cmds vals answers q a e ci cj :
  observes s cmds vals answers q a e ci cj -> err s = e.
Proof. now intros (_ & _ & _ & _ & _ & He & _). Qed.

Lemma observes_cursors s cmds vals answers q a e ci cj :
  observes s cmds vals answers q a e ci cj -> i s = Z.of_nat ci /\ j s = Z.of_nat cj.
Proof. now intros (_ & _ & _ & _ & _ & _ & Hi & Hj). Qed.

Lemma observes_answers s cmds vals answers q a e ci cj :
  observes s cmds vals answers q a e ci cj -> cells (ans_mem s) = answers.
Proof. now intros (_ & _ & Ham & _). Qed.

End FifoDriver.

(** Three pushes, then three pops. *)
Lemma push3_pop3 (capacity : nat) (v1 v2 v3 : Z) (ctail vtail answers : list Z) :
  (3 <= capacity)%nat ->
  0 <= v1 < 2 ^ 32 -> 0 <= v2 < 2 ^ 32 -> 0 <= v3 < 2 ^ 32 ->
  (3 <= length answers)%nat ->
  exists s',
    main_control 16
      (main_init (fifo capacity) ([Push; Push; Push; Pop; Pop; Pop] ++ ctail)
         ([v1; v2; v3] ++ vtail) answers []) = Some s' /\
    take 3 (cells (ans_mem s')) = [v1; v2; v3].
Proof.
  change (2 ^ 32) with 4294967296. intros Hcap Hv1 Hv2 Hv3 Hlen.
  set (cmds := [Push; Push; Push; Pop; Pop; Pop] ++ ctail).
  set (vals := [v1; v2; v3] ++ vtail).
  pose proof (observes_init (capacity := capacity) cmds vals answers) as H0.
  pose proof (observes_push _ _ _ _ _ _ _ _ v1 H0 eq_refl eq_refl Hv1
                ltac:(cbn [length]; lia) ltac:(lia) ltac:(lia)) as H1.
  pose proof (observes_push _ _ _ _ _ _ _ _ v2 H1 eq_refl eq_refl Hv2
                ltac:(cbn [length app]; lia) ltac:(lia) ltac:(lia)) as H2.
  pose proof (observes_push _ _ _ _ _ _ _ _ v3 H2 eq_refl eq_refl Hv3
                ltac:(cbn [length app]; lia) ltac:(lia) ltac:(lia)) as H3.
  pose proof (observes_pop _ _ _ _ _ _ _ _ _ H3 eq_refl ltac:(lia) ltac:(lia)) as H4.
  pose proof (observes_pop _ _ _ _ _ _ _ _ _ H4 eq_refl ltac:(lia) ltac:(lia)) as H5.
  pose proof (observes_pop _ _ _ _ _ _ _ _ _ H5 eq_refl ltac:(lia) ltac:(lia)) as H6.
  destruct (main_control_after cmds vals answers ([] : queue_state (fifo capacity)) 6 3)
    as (s' & Hrun & _ & _ & Htake).
  - intros k Hk.
    destruct k as [|[|[|[|[|[|[|k]]]]]]]; [..|lia];
      eapply (observes_err (capacity := capacity)); eassumption.
  - cbn [iterations]. destruct (observes_cursors _ _ _ _ _ _ _ _ _ H6) as [_ ->]. lia.
  - cbn [iterations]. destruct (observes_cursors _ _ _ _ _ _ _ _ _ H6) as [_ ->]. lia.
  - exists s'. split; [exact Hrun|]. rewrite Htake. cbn [iterations].
    rewrite (observes_answers _ _ _ _ _ _ _ _ _ H6).
    destruct answers as [|a0 [|a1 [|a2 rest]]]; cbn [length] in Hlen; try lia.
    reflexivity.
Qed.

(** One push, then a peek and a pop. *)
Lemma push_peek_pop (capacity : nat) (v : Z) (ctail vtail answers : list Z) :
  (1 <= capacity)%nat ->
  0 <= v < 2 ^ 32 ->
  (2 <= length answers)%nat ->
  exists s',
    main_control 16
      (main_init (fifo capacity) ([Push; Peek; Pop] ++ ctail) ([v] ++ vtail)
         answers []) = Some s' /\
    take 2 (cells (ans_mem s')) = [v; v].
Proof.
  change (2 ^ 32) with 4294967296. intros Hcap Hv Hlen.
  set (cmds := [Push; Peek; Pop] ++ ctail).
  set (vals := [v] ++ vtail).
  pose proof (observes_init (capacity := capacity) cmds vals answers) as H0.
  pose proof (observes_push _ _ _ _ _ _ _ _ v H0 eq_refl eq_refl Hv
                ltac:(cbn [length]; lia) ltac:(lia) ltac:(lia)) as H1.
  pose proof (observes_peek _ _ _ _ _ _ _ _ _ H1 eq_refl ltac:(lia) ltac:(lia)) as H2.
  pose proof (observes_pop _ _ _ _ _ _ _ _ _ H2 eq_refl ltac:(lia) ltac:(lia)) as H3.
  destruct (main_control_after cmds vals answers ([] : queue_state (fifo capacity)) 3 2)
    as (s' & Hrun & _ & _ & Htake).
  - intros k Hk.
    destruct k as [|[|[|[|k]]]]; [..|lia];
      eapply (observes_err (capacity := capacity)); eassumption.
  - cbn [iterations]. destruct (observes_cursors _ _ _ _ _ _ _ _ _ H3) as [_ ->]. lia.
  - cbn [iterations]. destruct (observes_cursors _ _ _ _ _ _ _ _ _ H3) as [_ ->]. lia.
  - exists s'. split; [exact Hrun|]. rewrite Htake. cbn [iterations].
    rewrite (observes_answers _ _ _ _ _ _ _ _ _ H3).
    destruct answers as [|a0 [|a1 rest]]; cbn [length] in Hlen; try lia.
    reflexivity.
Qed.

(** C8: in front of a first-in first-out queue that has room for the
    pushes, a tape that begins with three pushes of [v1], [v2], [v3] and
    three pops leaves [v1; v2; v3] in the first three cells of the answer
    memory at the end of the run, and a tape that begins with a push of [v],
    a peek and a pop leaves [v; v] in the first two. *)
Theorem fifo_round_trip (capacity : nat) (v1 v2 v3 v : Z)
    (ctail vtail ctail' vtail' answers : list Z) :
  (3 <= capacity)%nat ->
  0 <= v1 < 2 ^ 32 -> 0 <= v2 < 2 ^ 32 -> 0 <= v3 < 2 ^ 32 -> 0 <= v < 2 ^ 32 ->
  length answers = Z.to_nat ANS_MEM_LEN ->
  (exists s',
     main_control 16
       (main_init (fifo capacity) ([Push; Push; Push; Pop; Pop; Pop] ++ ctail)
          ([v1; v2; v3] ++ vtail) answers []) = Some s' /\
     take 3 (cells (ans_mem s')) = [v1; v2; v3]) /\
  (exists s',
     main_control 16
       (main_init (fifo capacity) ([Push; Peek; Pop] ++ ctail') ([v] ++ vtail')
          answers []) = Some s' /\
     take 2 (cells (ans_mem s')) = [v; v]).
Proof.
  intros Hcap Hv1 Hv2 Hv3 Hv Hlen.
  change (Z.to_nat ANS_MEM_LEN) with 10%nat in Hlen.
  split; [apply push3_pop3|apply push_peek_pop]; try assumption; lia.
Qed.

Lemma fifo_round_trip_witness :
  (exists s',
     main_control 16
       (main_init (fifo 10)
          ([Push; Push; Push; Pop; Pop; Pop] ++ [Push; Pop; Push; Peek; Pop; Pop; Pop; Pop; Pop])
          ([7; 8; 9] ++ [1; 0; 2; 0; 0; 0; 0; 0; 0; 0; 0; 0]) blank_answers []) = Some s' /\
     take 3 (cells (ans_mem s')) = [7; 8; 9]) /\
  (exists s',
     main_control 16
       (main_init (fifo 10)
          ([Push; Peek; Pop] ++ [Push; Push; Push; Push; Push; Push; Push; Push; Push; Push; Push; Push])
          ([4] ++ [0; 0; 1; 2; 3; 4; 5; 6; 7; 8; 9; 10; 11; 12]) blank_answers []) = Some s' /\
     take 2 (cells (ans_mem s')) = [4; 4]).
Proof.
  apply (fifo_round_trip 10 7 8 9 4); try reflexivity; try (vm_compute; lia);
    change (2 ^ 32) with 4294967296; lia.
Defined.

(** ** The answer cursor and the size of the answer memory *)

(** C7: nothing keeps [j] within [ANS_MEM_LEN].  On a tape with one push and
    fourteen peeks, in front of a queue that raises no error, the twelfth
    iteration runs [write_ans] with [j] equal to [ANS_MEM_LEN], takes [j]
    beyond it and leaves [err] down; [write_ans] has no effect on [err]
    whatever [j] is. *)
Theorem answer_cursor_overruns :
  exists (cmds vals : list Z) (n : nat),
    length cmds = Z.to_nat MAX_CMDS /\
    length vals = Z.to_nat MAX_CMDS /\
    Forall (fun c => c = Pop \/ c = Peek \/ c = Push) cmds /\
    (n < Z.to_nat MAX_CMDS)%nat /\
    engine_quiet (Z.to_nat MAX_CMDS) (main_init (fifo 10) cmds vals blank_answers [])
    = true /\
    err_eq_0 (iterations n (main_init (fifo 10) cmds vals blank_answers [])) = true /\
    j (dispatch (iterations n (main_init (fifo 10) cmds vals blank_answers [])))
    = ANS_MEM_LEN /\
    iteration (iterations n (main_init (fifo 10) cmds vals blank_answers []))
    = invoke_raise_err_if_i_eq_max_cmds
        (incr_i (incr_j (write_ans
           (dispatch (iterations n (main_init (fifo 10) cmds vals blank_answers [])))))) /\
    err (iteration (iterations n (main_init (fifo 10) cmds vals blank_answers [])))
    = false /\
    ANS_MEM_LEN < j (iteration (iterations n (main_init (fifo 10) cmds vals blank_answers []))) /\
    (forall s : main_state (fifo 10), err (write_ans s) = err s).
Proof.
  exists tape_peeks, operands_count_up, 11%nat.
  split; [reflexivity|]. split; [reflexivity|].
  split.
  { unfold tape_peeks.
    repeat match goal with |- Forall _ _ => constructor end;
      unfold Pop, Peek, Push; lia. }
  split; [vm_compute; lia|].
  split; [vm_compute; reflexivity|].
  split; [vm_compute; reflexivity|].
  split; [vm_compute; reflexivity|].
  split; [vm_compute; reflexivity|].
  split; [vm_compute; reflexivity|].
  split; [vm_compute; reflexivity|].
  intros s. reflexivity.
Qed.

(** ** The scenario [Push 5, Push 9, Pop, Peek] *)

(** C9, as the code has it: in front of a first-in first-out queue with room
    for two elements, after the four commands [Push 5, Push 9, Pop, Peek] the
    first two cells of the answer memory hold [5; 9] (the peek sees what the
    pop left in front), [j] is 2, [i] is 4 and [err] is down.  The loop has
    not ended there: it goes on with the rest of the tape, and the run ends
    later, with [err] raised and the two answers still in place. *)
Theorem scenario_push_push_pop_peek (capacity : nat) (ctail vtail answers : list Z) :
  (2 <= capacity)%nat ->
  length answers = Z.to_nat ANS_MEM_LEN ->
  take 2 (cells (ans_mem (iterations 4
     (main_init (fifo capacity) ([Push; Push; Pop; Peek] ++ ctail) ([5; 9] ++ vtail)
        answers [])))) = [5; 9] /\
  j (iterations 4
       (main_init (fifo capacity) ([Push; Push; Pop; Peek] ++ ctail) ([5; 9] ++ vtail)
          answers [])) = 2 /\
  i (iterations 4
       (main_init (fifo capacity) ([Push; Push; Pop; Peek] ++ ctail) ([5; 9] ++ vtail)
          answers [])) = 4 /\
  err (iterations 4
         (main_init (fifo capacity) ([Push; Push; Pop; Peek] ++ ctail) ([5; 9] ++ vtail)
            answers [])) = false /\
  main_control 5
    (main_init (fifo capacity) ([Push; Push; Pop; Peek] ++ ctail) ([5; 9] ++ vtail)
       answers []) = None /\
  exists s',
    main_control 16
      (main_init (fifo capacity) ([Push; Push; Pop; Peek] ++ ctail) ([5; 9] ++ vtail)
         answers []) = Some s' /\
    take 2 (cells (ans_mem s')) = [5; 9] /\ err s' = true /\ 4 < i s' <= MAX_CMDS.
Proof.
  intros Hcap Hlen. change (Z.to_nat ANS_MEM_LEN) with 10%nat in Hlen.
  set (cmds := [Push; Push; Pop; Peek] ++ ctail).
  set (vals := [5; 9] ++ vtail).
  pose proof (observes_init (capacity := capacity) cmds vals answers) as H0.
  pose proof (observes_push _ _ _ _ _ _ _ _ 5 H0 eq_refl eq_refl ltac:(lia)
                ltac:(cbn [length]; lia) ltac:(lia) ltac:(lia)) as H1.
  pose proof (observes_push _ _ _ _ _ _ _ _ 9 H1 eq_refl eq_refl ltac:(lia)
                ltac:(cbn [length app]; lia) ltac:(lia) ltac:(lia)) as H2.
  pose proof (observes_pop _ _ _ _ _ _ _ _ _ H2 eq_refl ltac:(lia) ltac:(lia)) as H3.
  pose proof (observes_peek _ _ _ _ _ _ _ _ _ H3 eq_refl ltac:(lia) ltac:(lia)) as H4.
  assert (forall k, (k <= 4)%nat ->
            err (iterations k (main_init (fifo capacity) cmds vals answers [])) = false)
    as Hlow.
  { intros k Hk.
    destruct k as [|[|[|[|[|k]]]]]; [..|lia];
      eapply (observes_err (capacity := capacity)); eassumption. }
  assert (take 2 (cells (ans_mem (iterations 4
            (main_init (fifo capacity) cmds vals answers [])))) = [5; 9]) as Htwo.
  { cbn [iterations]. rewrite (observes_answers _ _ _ _ _ _ _ _ _ H4).
    destruct answers as [|a0 [|a1 rest]]; cbn [length] in Hlen; try lia.
    reflexivity. }
  destruct (observes_cursors _ _ _ _ _ _ _ _ _ H4) as [Hi Hj].
  split; [exact Htwo|]. split; [exact Hj|]. split; [exact Hi|].
  split; [apply (Hlow 4%nat); lia|].
  split; [apply main_control_running; intros k Hk; apply Hlow; lia|].
  destruct (main_control_after cmds vals answers ([] : queue_state (fifo capacity)) 4 2)
    as (s' & Hrun & Herr & Hbound & Htake).
  - exact Hlow.
  - cbn [iterations]. rewrite Hj. lia.
  - cbn [iterations]. rewrite Hj. lia.
  - exists s'. rewrite Htake, Htwo. repeat split; try assumption; lia.
Qed.

Lemma scenario_push_push_pop_peek_witness :
  take 2 (cells (ans_mem (iterations 4
     (main_init (fifo 10) ([Push; Push; Pop; Peek] ++ [Pop; Pop; Pop; Pop; Pop; Pop; Pop; Pop; Pop; Pop; Pop])
        ([5; 9] ++ [0; 0; 0; 0; 0; 0; 0; 0; 0; 0; 0; 0; 0]) blank_answers [])))) = [5; 9].
Proof.
  apply (scenario_push_push_pop_peek 10); [lia|reflexivity].
Defined.

(** C9, as the spec states it, fails: the two answers are 5 and 9, not 5
    and 5, and no run ends with [err] down. *)
Lemma scenario_counterexample :
  take 2 (cells (ans_mem (iterations 4
     (main_init (fifo 10) tape_scenario operands_scenario blank_answers []))))
  <> [5; 5] /\
  (fun s' => (take 2 (cells (ans_mem s')), err s', i s'))
    <$> main_control 16 (main_init (fifo 10) tape_scenario operands_scenario
                           blank_answers [])
  = Some ([5; 9], true, 6) /\
  ~ (exists fuel s',
       main_control fuel (main_init (fifo 10) tape_scenario operands_scenario
                            blank_answers []) = Some s' /\
       take 2 (cells (ans_mem s')) = [5; 5] /\ err s' = false /\ i s' = 4).
Proof.
  split; [|split].
  - vm_compute. discriminate.
  - vm_compute. reflexivity.
  - intros (fuel & s' & Hrun & _ & Herr & _).
    apply main_control_err in Hrun. congruence.
Qed.

(** * Further properties of [main] *)

Section Driver.

Context {E : Engine}.
Implicit Types s : main_state E.

(** [main] only reads its two tapes: no iteration, and so no run, changes a
    cell of [commands] or of [values]. *)
Theorem tapes_read_only s :
  (forall n, cells (commands (iterations n s)) = cells (commands s) /\
             cells (values (iterations n s)) = cells (values s)) /\
  (forall fuel s', main_control fuel s = Some s' ->
     cells (commands s') = cells (commands s) /\
     cells (values s') = cells (values s)).
Proof.
  split.
  - intros n. split; [apply iterations_cells_commands|apply iterations_cells_values].
  - intros fuel s' Hrun.
    destruct (main_control_inv _ _ _ Hrun) as (n & _ & -> & _).
    split; [apply iterations_cells_commands|apply iterations_cells_values].
Qed.

Lemma recorded_succ_r n : forall s,
  recorded (S n) s =
  recorded n s ++
  (if cmd_le_1 (dispatch (iterations n s)) then [ans (dispatch (iterations n s))]
   else []).
Proof.
  induction n as [|n IH]; intros s.
  - cbn [recorded iterations]. now rewrite app_nil_r.
  - change (recorded (S (S n)) s)
      with ((if cmd_le_1 (dispatch s) then [ans (dispatch s)] else [])
            ++ recorded (S n) (iteration s)).
    rewrite IH. cbn [recorded iterations]. now rewrite app_assoc.
Qed.

Lemma recorded_length n s : (length (recorded n s) <= n)%nat.
Proof.
  revert s. induction n as [|n IH]; intros s; cbn [recorded]; [cbn; lia|].
  rewrite length_app. specialize (IH (iteration s)).
  destruct (cmd_le_1 (dispatch s)); cbn [length]; lia.
Qed.

End Driver.

(** Storing at the end of the answers written so far. *)
Lemma overlay_insert (answers written : list Z) (x : Z) :
  <[length written := x]>
    (take (length answers) (written ++ drop (length written) answers))
  = take (length answers) ((written ++ [x]) ++ drop (S (length written)) answers).
Proof.
  destruct (le_lt_dec (length answers) (length written)) as [Hfull|Hroom].
  - rewrite list_insert_ge by (rewrite length_take; lia).
    rewrite !take_app_le by (rewrite ?length_app; lia). reflexivity.
  - destruct (lookup_lt_is_Some_2 answers (length written) Hroom) as [a Ha].
    rewrite (drop_S _ _ _ Ha).
    rewrite !take_ge by (rewrite !length_app; cbn [length];
                         rewrite ?length_app, length_drop; cbn [length]; lia).
    rewrite insert_app_r_alt by lia. rewrite Nat.sub_diag. cbn [insert].
    now rewrite <- app_assoc.
Qed.

Section DriverRun.

Context {E : Engine}.
Context (cmds vals answers : list Z) (q : queue_state E).

Local Abbreviation s0 := (main_init E cmds vals answers q).

Lemma run_i_j n :
  (n <= 15)%nat ->
  0 <= j (iterations n s0) <= i (iterations n s0) /\
  i (iterations n s0) = Z.of_nat n.
Proof.
  intros Hn. rewrite run_i by exact Hn. split; [|reflexivity].
  induction n as [|n IH]; [cbn; lia|].
  rewrite iterations_succ_r, iteration_j.
  destruct (cmd_le_1 _); [rewrite wrap32_small|]; lia.
Qed.

Lemma run_recorded n :
  (n <= 15)%nat ->
  j (iterations n s0) = Z.of_nat (length (recorded n s0)) /\
  cells (ans_mem (iterations n s0))
  = take (length answers) (recorded n s0 ++ drop (length (recorded n s0)) answers).
Proof.
  induction n as [|n IH]; intros Hn.
  - cbn [recorded iterations app length drop]. split; [reflexivity|].
    cbn. now rewrite take_ge.
  - destruct (IH ltac:(lia)) as [IHj IHc].
    pose proof (recorded_length n s0) as Hlen.
    rewrite recorded_succ_r, iterations_succ_r, iteration_j, iteration_ans_mem.
    destruct (cmd_le_1 (dispatch (iterations n s0))).
    + rewrite length_app. cbn [length mem_store cells].
      rewrite IHj, IHc, wrap32_small, Nat2Z.id by lia.
      split; [lia|]. rewrite overlay_insert.
      now replace (length (recorded n s0) + 1)%nat with (S (length (recorded n s0))) by lia.
    + rewrite app_nil_r. now split.
Qed.

End DriverRun.

(** ** Runs without an engine fault *)

(** C3, as the code has it: on a tape of [MAX_CMDS] commands during which
    the engine raises no error, the loop makes [MAX_CMDS] passes, one per
    command of the tape: each pass starts with [err] down, latches its own
    command, invokes the queue on it and on its operand, and records the
    answer of a pop or a peek.  The ceiling check raises [err] within the
    pass that consumes the last command, as its last step, after that
    command has been dispatched and recorded and [i] has become [MAX_CMDS];
    [err] is still down just before.  The loop test that follows ends the
    run: there is no further pass. *)
Theorem ceiling_after_last_command (E : Engine) (cmds vals answers : list Z)
    (q : queue_state E) :
  length cmds = Z.to_nat MAX_CMDS ->
  engine_quiet (Z.to_nat MAX_CMDS) (main_init E cmds vals answers q) = true ->
  (forall k c, cmds !! k = Some c ->
     err_eq_0 (iterations k (main_init E cmds vals answers q)) = true /\
     i (dispatch (iterations k (main_init E cmds vals answers q))) = Z.of_nat k /\
     command (dispatch (iterations k (main_init E cmds vals answers q))) = wrap 2 c /\
     (myqueue (dispatch (iterations k (main_init E cmds vals answers q))),
      ans (dispatch (iterations k (main_init E cmds vals answers q))),
      err (dispatch (iterations k (main_init E cmds vals answers q))))
     = queue_invoke E (myqueue (iterations k (main_init E cmds vals answers q)))
         (wrap 2 c) (wrap 32 (default 0 (vals !! k)))
         (ans (iterations k (main_init E cmds vals answers q))) false /\
     err (dispatch (iterations k (main_init E cmds vals answers q))) = false /\
     ans_mem (iterations (S k) (main_init E cmds vals answers q))
     = (if wrap 2 c <=? 1
        then mem_store (ans_mem (iterations k (main_init E cmds vals answers q)))
               (j (iterations k (main_init E cmds vals answers q)))
               (ans (dispatch (iterations k (main_init E cmds vals answers q))))
        else ans_mem (iterations k (main_init E cmds vals answers q)))) /\
  iterations 15 (main_init E cmds vals answers q)
  = invoke_raise_err_if_i_eq_max_cmds
      (incr_i (if_with cmd_le_1 [ write_ans; incr_j ]
                 (dispatch (iterations 14 (main_init E cmds vals answers q))))) /\
  err (incr_i (if_with cmd_le_1 [ write_ans; incr_j ]
                 (dispatch (iterations 14 (main_init E cmds vals answers q))))) = false /\
  i (incr_i (if_with cmd_le_1 [ write_ans; incr_j ]
               (dispatch (iterations 14 (main_init E cmds vals answers q))))) = MAX_CMDS /\
  err (iterations 15 (main_init E cmds vals answers q)) = true /\
  (forall fuel, (15 < fuel)%nat ->
     main_control fuel (main_init E cmds vals answers q)
     = Some (iterations 15 (main_init E cmds vals answers q))).
Proof.
  change (Z.to_nat MAX_CMDS) with 15%nat. intros Hlen Hq.
  pose proof (proj1 (engine_quiet_spec _ _) Hq) as Hdisp.
  pose proof (run_err_quiet cmds vals answers q 15 Hq) as Hlow.
  split; [|split; [reflexivity|repeat split]].
  - intros k c Hc.
    assert (k < 15)%nat as Hk by (apply lookup_lt_Some in Hc; lia).
    assert (err (iterations k (main_init E cmds vals answers q)) = false) as Hdown
      by (apply Hlow; lia).
    assert (command (dispatch (iterations k (main_init E cmds vals answers q))) = wrap 2 c)
      as Hcmd by now rewrite run_command, Hc.
    repeat split.
    + unfold err_eq_0. now rewrite Hdown.
    + rewrite dispatch_i. apply run_i. lia.
    + exact Hcmd.
    + rewrite dispatch_engine, iterations_cells_commands, iterations_cells_values.
      rewrite run_i, Nat2Z.id by lia. cbn [main_init commands values cells].
      now rewrite Hc, Hdown.
    + now apply Hdisp.
    + rewrite iterations_succ_r, iteration_ans_mem. unfold cmd_le_1. now rewrite Hcmd.
  - rewrite before_check_err. apply Hdisp. lia.
  - rewrite before_check_i, run_i by lia. reflexivity.
  - apply run_err_ceiling.
  - intros fuel Hfuel. apply main_control_iterations; [|apply run_err_ceiling|exact Hfuel].
    intros k Hk. apply Hlow; lia.
Qed.

Lemma ceiling_after_last_command_witness :
  err (iterations 15 (main_init (fifo 10) tape_push_pop operands_count_up blank_answers []))
  = true.
Proof.
  apply (ceiling_after_last_command (fifo 10) tape_push_pop operands_count_up
           blank_answers []); reflexivity.
Defined.

(** C3, as the spec states it, fails: the ceiling check does not wait for a
    pass after the one that consumes the last command.  On a tape of
    [MAX_CMDS] commands without an engine fault, the fifteenth pass latches
    the last command, has [err] down after the queue has been invoked, and
    ends with [err] raised; the loop stops after it even when it is given
    fuel for more passes. *)
Lemma ceiling_in_following_pass_counterexample :
  length tape_push_pop = Z.to_nat MAX_CMDS /\
  engine_quiet 15 (main_init (fifo 10) tape_push_pop operands_count_up blank_answers [])
  = true /\
  tape_push_pop !! 14%nat
  = Some (command (dispatch (iterations 14
            (main_init (fifo 10) tape_push_pop operands_count_up blank_answers [])))) /\
  err (dispatch (iterations 14
         (main_init (fifo 10) tape_push_pop operands_count_up blank_answers [])))
  = false /\
  err (iteration (iterations 14
         (main_init (fifo 10) tape_push_pop operands_count_up blank_answers [])))
  = true /\
  main_control 20 (main_init (fifo 10) tape_push_pop operands_count_up blank_answers [])
  = Some (iterations 15
            (main_init (fifo 10) tape_push_pop operands_count_up blank_answers [])) /\
  ~ (err (iterations 15
            (main_init (fifo 10) tape_push_pop operands_count_up blank_answers []))
     = false /\
     err (iterations 16
            (main_init (fifo 10) tape_push_pop operands_count_up blank_answers []))
     = true).
Proof.
  split; [reflexivity|]. split; [reflexivity|]. split; [reflexivity|].
  split; [reflexivity|]. split; [reflexivity|]. split; [vm_compute; reflexivity|].
  intros [Hdown _]. vm_compute in Hdown. discriminate.
Qed.

(** C2, as the code has it: while the engine raises no error, after [n]
    passes ([n] at most [MAX_CMDS]) the command cursor is [n], and
    [write_ans] has been run once for every pop and peek among the first [n]
    commands of the tape: their number is [j], and the answer memory holds
    the answers in order in its first cells, as far as they fit, and its old
    content behind them.  When the answers fit, exactly that many cells have
    been written.  Below [MAX_CMDS] the flag [err] is still down and the loop
    goes on; at [MAX_CMDS] the run ends, with [err] raised.  No run ends with
    [err] down. *)
Theorem quiet_run_counts_answers (E : Engine) (cmds vals answers : list Z)
    (q : queue_state E) (n : nat) :
  length cmds = Z.to_nat MAX_CMDS ->
  Forall (fun c => 0 <= c < 4) cmds ->
  (n <= Z.to_nat MAX_CMDS)%nat ->
  engine_quiet n (main_init E cmds vals answers q) = true ->
  i (iterations n (main_init E cmds vals answers q)) = Z.of_nat n /\
  j (iterations n (main_init E cmds vals answers q)) = pop_peek_count (take n cmds) /\
  Z.of_nat (length (recorded n (main_init E cmds vals answers q)))
  = pop_peek_count (take n cmds) /\
  cells (ans_mem (iterations n (main_init E cmds vals answers q)))
  = take (length answers)
      (recorded n (main_init E cmds vals answers q)
       ++ drop (length (recorded n (main_init E cmds vals answers q))) answers) /\
  ((length (recorded n (main_init E cmds vals answers q)) <= length answers)%nat ->
   take (length (recorded n (main_init E cmds vals answers q)))
     (cells (ans_mem (iterations n (main_init E cmds vals answers q))))
   = recorded n (main_init E cmds vals answers q) /\
   drop (length (recorded n (main_init E cmds vals answers q)))
     (cells (ans_mem (iterations n (main_init E cmds vals answers q))))
   = drop (length (recorded n (main_init E cmds vals answers q))) answers) /\
  ((n < Z.to_nat MAX_CMDS)%nat ->
   err (iterations n (main_init E cmds vals answers q)) = false /\
   main_control (S n) (main_init E cmds vals answers q) = None) /\
  (n = Z.to_nat MAX_CMDS ->
   err (iterations n (main_init E cmds vals answers q)) = true /\
   main_control (S n) (main_init E cmds vals answers q)
   = Some (iterations n (main_init E cmds vals answers q))) /\
  (forall fuel s',
     main_control fuel (main_init E cmds vals answers q) = Some s' -> err s' = true).
Proof.
  change (Z.to_nat MAX_CMDS) with 15%nat. intros Hlen Hwf Hn Hq.
  pose proof (run_err_quiet cmds vals answers q n Hq) as Hlow.
  destruct (run_recorded cmds vals answers q n Hn) as [Hj Hcells].
  assert (j (iterations n (main_init E cmds vals answers q))
          = pop_peek_count (take n cmds)) as Hcount.
  { rewrite run_j by lia. rewrite map_wrap2_id; [reflexivity|].
    now apply Forall_take. }
  split; [now apply run_i|]. split; [exact Hcount|].
  split; [now rewrite <- Hj|]. split; [exact Hcells|].
  split; [|split; [|split]].
  - intros Hfit. rewrite Hcells.
    set (R := recorded n (main_init E cmds vals answers q)) in *.
    rewrite (take_ge (R ++ drop (length R) answers) (length answers))
      by (rewrite length_app, length_drop; lia).
    now rewrite take_app_length, drop_app_length.
  - intros Hlt. split; [apply Hlow; lia|].
    apply main_control_running. intros k Hk. apply Hlow; lia.
  - intros ->. split; [apply run_err_ceiling|].
    apply main_control_iterations; [|apply run_err_ceiling|lia].
    intros k Hk. apply Hlow; lia.
  - intros fuel s'. apply main_control_err.
Qed.

Lemma quiet_run_counts_answers_witness :
  j (iterations 15 (main_init (fifo 10) tape_push_pop operands_count_up blank_answers []))
  = 7 /\
  cells (ans_mem (iterations 15
           (main_init (fifo 10) tape_push_pop operands_count_up blank_answers [])))
  = [1; 3; 5; 7; 9; 11; 13; 0; 0; 0].
Proof.
  destruct (quiet_run_counts_answers (fifo 10) tape_push_pop operands_count_up
              blank_answers [] 15) as (_ & Hj & _ & Hcells & _).
  - reflexivity.
  - unfold tape_push_pop, Push, Pop. repeat constructor; lia.
  - vm_compute. lia.
  - reflexivity.
  - split; [exact Hj|exact Hcells].
Defined.

(** C2, as the spec states it, fails on two counts.  On the tape of one
    push and fourteen peeks the engine raises no error, yet the run ends
    with [err] raised, as every run does; and of the fourteen answers of the
    peeks only [ANS_MEM_LEN] are in the answer memory: the memory has ten
    cells, and the stores of the last four are out of range. *)
Lemma quiet_run_ends_with_err_down_counterexample :
  length tape_peeks = Z.to_nat MAX_CMDS /\
  engine_quiet 15 (main_init (fifo 10) tape_peeks operands_count_up blank_answers [])
  = true /\
  pop_peek_count tape_peeks = 14 /\
  (fun s' => (err s', j s', cells (ans_mem s')))
    <$> main_control 16 (main_init (fifo 10) tape_peeks operands_count_up
                           blank_answers [])
  = Some (true, 14, [1; 1; 1; 1; 1; 1; 1; 1; 1; 1]) /\
  ~ (exists fuel s',
       main_control fuel (main_init (fifo 10) tape_peeks operands_count_up
                            blank_answers []) = Some s' /\
       err s' = false) /\
  ~ (exists fuel s',
       main_control fuel (main_init (fifo 10) tape_peeks operands_count_up
                            blank_answers []) = Some s' /\
       pop_peek_count tape_peeks <= Z.of_nat (length (cells (ans_mem s')))).
Proof.
  split; [reflexivity|]. split; [reflexivity|]. split; [reflexivity|].
  split; [vm_compute; reflexivity|]. split.
  - intros (fuel & s' & Hrun & Herr).
    apply main_control_err in Hrun. congruence.
  - intros (fuel & s' & Hrun & Hfit).
    assert (main_control 16 (main_init (fifo 10) tape_peeks operands_count_up
                               blank_answers [])
            = Some (iterations 15 (main_init (fifo 10) tape_peeks operands_count_up
                                     blank_answers []))) as Hrun'
      by (vm_compute; reflexivity).
    rewrite (main_control_det _ _ _ _ _ Hrun Hrun') in Hfit.
    vm_compute in Hfit. now apply Hfit.
Qed.

Lemma run_length {E : Engine} (cmds vals answers : list Z) (q : queue_state E)
    (fuel : nat) (s' : main_state E) :
  main_control fuel (main_init E cmds vals answers q) = Some s' ->
  exists n, (1 <= n <= 15)%nat /\ s' = iterations n (main_init E cmds vals answers q) /\
    i s' = Z.of_nat n /\
    forall k, (k < n)%nat -> err (iterations k (main_init E cmds vals answers q)) = false.
Proof.
  intros Hrun. destruct (main_control_inv _ _ _ Hrun) as (n & _ & -> & Herr & Hlow).
  assert (n <= 15)%nat as Hn.
  { destruct (le_lt_dec n 15) as [|Hgt]; [assumption|].
    pose proof (run_err_ceiling cmds vals answers q) as Hup.
    rewrite Hlow in Hup by lia. discriminate. }
  assert (1 <= n)%nat as Hpos.
  { destruct n as [|n]; [discriminate Herr|lia]. }
  exists n. split; [lia|]. split; [reflexivity|]. split; [now apply run_i|exact Hlow].
Qed.

(** At the end of every run the answer cursor is at most the command
    cursor, and the command cursor is between 1 and [MAX_CMDS]: the loop is
    entered at least once, neither cursor wraps, and at most [MAX_CMDS]
    answers are stored. *)
Theorem cursors_bounded (E : Engine) (cmds vals answers : list Z) (q : queue_state E)
    (fuel : nat) (s' : main_state E) :
  main_control fuel (main_init E cmds vals answers q) = Some s' ->
  0 <= j s' <= i s' /\ 1 <= i s' <= MAX_CMDS.
Proof.
  intros Hrun. destruct (run_length _ _ _ _ _ _ Hrun) as (n & Hn & -> & Hi & _).
  destruct (run_i_j cmds vals answers q n ltac:(lia)) as [Hj _].
  unfold MAX_CMDS. lia.
Qed.

Lemma cursors_bounded_witness :
  exists s',
    main_control 16 (main_init (fifo 10) tape_scenario operands_scenario blank_answers [])
    = Some s' /\
    0 <= j s' <= i s' /\ 1 <= i s' <= MAX_CMDS.
Proof.
  eexists. split; [vm_compute; reflexivity|].
  apply (cursors_bounded (fifo 10) tape_scenario operands_scenario blank_answers [] 16).
  vm_compute. reflexivity.
Defined.

(** Whatever the engine does, faults included, a run ends with [j] equal to
    the number of pops and peeks among the commands it has consumed, the
    first [i] entries of the tape. *)
Theorem answer_cursor_counts (E : Engine) (cmds vals answers : list Z)
    (q : queue_state E) (fuel : nat) (s' : main_state E) :
  length cmds = Z.to_nat MAX_CMDS ->
  Forall (fun c => 0 <= c < 4) cmds ->
  main_control fuel (main_init E cmds vals answers q) = Some s' ->
  j s' = pop_peek_count (take (Z.to_nat (i s')) cmds).
Proof.
  change (Z.to_nat MAX_CMDS) with 15%nat. intros Hlen Hwf Hrun.
  destruct (run_length _ _ _ _ _ _ Hrun) as (n & Hn & -> & Hi & _).
  rewrite Hi, Nat2Z.id, run_j by lia.
  rewrite map_wrap2_id; [reflexivity|]. now apply Forall_take.
Qed.

Lemma answer_cursor_counts_witness :
  exists s',
    main_control 16 (main_init (fifo 10) tape_scenario operands_scenario blank_answers [])
    = Some s' /\
    j s' = pop_peek_count (take (Z.to_nat (i s')) tape_scenario).
Proof.
  eexists. split; [vm_compute; reflexivity|].
  apply (answer_cursor_counts (fifo 10) tape_scenario operands_scenario blank_answers
           [] 16).
  - reflexivity.
  - unfold tape_scenario, Push, Pop, Peek.
    repeat match goal with |- Forall _ _ => constructor end; lia.
  - vm_compute. reflexivity.
Defined.

(** The first error that the engine raises ends the run: when the engine
    was quiet for [k] iterations and raises [err] in the next one, the loop
    stops right after that iteration, with [i = k + 1]; the rest of the tape
    is not consumed. *)
Theorem fault_ends_run (E : Engine) (cmds vals answers : list Z) (q : queue_state E)
    (k : nat) :
  (k < Z.to_nat MAX_CMDS)%nat ->
  engine_quiet k (main_init E cmds vals answers q) = true ->
  err (dispatch (iterations k (main_init E cmds vals answers q))) = true ->
  (forall fuel, (S k < fuel)%nat ->
     main_control fuel (main_init E cmds vals answers q)
     = Some (iterations (S k) (main_init E cmds vals answers q))) /\
  i (iterations (S k) (main_init E cmds vals answers q)) = Z.of_nat k + 1.
Proof.
  change (Z.to_nat MAX_CMDS) with 15%nat. intros Hk Hq Hfault.
  split; [|rewrite run_i; lia].
  intros fuel Hfuel. apply main_control_iterations; [| |exact Hfuel].
  - intros m Hm. apply (run_err_quiet cmds vals answers q k Hq); lia.
  - rewrite iterations_succ_r, iteration_err.
    now apply raise_err_if_i_eq_max_cmds_keeps.
Qed.

Lemma fault_ends_run_witness :
  i (iterations 6 (main_init (fifo 10) tape_scenario operands_scenario blank_answers []))
  = 5 + 1.
Proof.
  apply (fault_ends_run (fifo 10) tape_scenario operands_scenario blank_answers [] 5).
  - vm_compute. lia.
  - reflexivity.
  - reflexivity.
Defined.

(** The queue is handed the tape in order: the iteration of a run that
    consumes entry [k] invokes the queue on the [k]-th command and the
    [k]-th operand, and with [err] down. *)
Theorem queue_invoked_in_tape_order (E : Engine) (cmds vals answers : list Z)
    (q : queue_state E) (fuel : nat) (s' : main_state E) (k : nat) (c v : Z) :
  main_control fuel (main_init E cmds vals answers q) = Some s' ->
  Z.of_nat k < i s' ->
  cmds !! k = Some c ->
  vals !! k = Some v ->
  err (iterations k (main_init E cmds vals answers q)) = false /\
  (myqueue (dispatch (iterations k (main_init E cmds vals answers q))),
   ans (dispatch (iterations k (main_init E cmds vals answers q))),
   err (dispatch (iterations k (main_init E cmds vals answers q))))
  = queue_invoke E (myqueue (iterations k (main_init E cmds vals answers q)))
      (wrap 2 c) (wrap 32 v)
      (ans (iterations k (main_init E cmds vals answers q))) false.
Proof.
  intros Hrun Hk Hc Hv.
  destruct (run_length _ _ _ _ _ _ Hrun) as (n & Hn & -> & Hi & Hlow).
  assert (k < n)%nat as Hkn by lia.
  split; [now apply Hlow|].
  rewrite dispatch_engine, iterations_cells_commands, iterations_cells_values.
  rewrite run_i, Nat2Z.id by lia. cbn [main_init commands values cells].
  now rewrite Hc, Hv, (Hlow k Hkn).
Qed.

Lemma queue_invoked_in_tape_order_witness :
  err (iterations 1 (main_init (fifo 10) tape_scenario operands_scenario blank_answers []))
  = false.
Proof.
  eapply (queue_invoked_in_tape_order (fifo 10) tape_scenario operands_scenario
            blank_answers [] 16 _ 1 Push 9).
  - vm_compute. reflexivity.
  - vm_compute. reflexivity.
  - reflexivity.
  - reflexivity.
Defined.

(** The answer memory at the end of a run: the answers of the pops and
    peeks, in the order in which the queue gave them, as far as they fit, and
    behind them what the memory held before.  The memory keeps its size, and
    [j] is the number of answers, also of those that did not fit. *)
Theorem answers_in_order (E : Engine) (cmds vals answers : list Z) (q : queue_state E)
    (fuel : nat) (s' : main_state E) :
  main_control fuel (main_init E cmds vals answers q) = Some s' ->
  j s' = Z.of_nat (length (recorded (Z.to_nat (i s')) (main_init E cmds vals answers q))) /\
  length (cells (ans_mem s')) = length answers /\
  take (length (recorded (Z.to_nat (i s')) (main_init E cmds vals answers q)))
    (cells (ans_mem s'))
  = take (length answers) (recorded (Z.to_nat (i s')) (main_init E cmds vals answers q)) /\
  drop (length (recorded (Z.to_nat (i s')) (main_init E cmds vals answers q)))
    (cells (ans_mem s'))
  = drop (length (recorded (Z.to_nat (i s')) (main_init E cmds vals answers q))) answers.
Proof.
  intros Hrun.
  destruct (run_length _ _ _ _ _ _ Hrun) as (n & Hn & -> & Hi & _).
  rewrite Hi, Nat2Z.id.
  destruct (run_recorded cmds vals answers q n ltac:(lia)) as [Hj Hc].
  rewrite Hc. set (R := recorded n (main_init E cmds vals answers q)).
  split; [exact Hj|].
  destruct (le_lt_dec (length answers) (length R)) as [Hfull|Hroom].
  - rewrite take_app_le by lia. rewrite length_take.
    split; [lia|]. rewrite take_take. split; [f_equal; lia|].
    rewrite !drop_ge; [reflexivity|lia|rewrite length_take; lia].
  - rewrite take_ge by (rewrite length_app, length_drop; lia).
    rewrite length_app, length_drop. split; [lia|].
    rewrite take_app_length, drop_app_length.
    split; [|reflexivity]. rewrite take_ge; [reflexivity|lia].
Qed.

Lemma answers_in_order_witness :
  exists s',
    main_control 16 (main_init (fifo 10) tape_peeks operands_count_up blank_answers [])
    = Some s' /\
    j s' = 14 /\ length (cells (ans_mem s')) = 10%nat.
Proof.
  eexists. split; [vm_compute; reflexivity|].
  pose proof (answers_in_order (fifo 10) tape_peeks operands_count_up blank_answers []
                16 _ ltac:(vm_compute; reflexivity)) as (Hj & Hlen & _).
  split; [exact Hj|exact Hlen].
Defined.

(** * Properties of [run-benchmarks.py] *)

(** ** Strings as lists of characters *)

Lemma chars_app (s1 s2 : string) : chars (s1 +:+ s2) = chars s1 ++ chars s2.
Proof.
  unfold chars. induction s1 as [|c s1 IH]; [reflexivity|].
  change (String c s1 +:+ s2) with (String c (s1 +:+ s2)).
  cbn [String.list_ascii_of_string app]. now f_equal.
Qed.

Lemma chars_inj (s1 s2 : string) : chars s1 = chars s2 -> s1 = s2.
Proof.
  intros H. rewrite <- (String.string_of_list_ascii_of_string s1),
    <- (String.string_of_list_ascii_of_string s2).
  unfold chars in H. now rewrite H.
Qed.

Lemma chars_str_replace (old new : ascii) (s : string) :
  chars (str_replace old new s)
  = map (fun c => if Ascii.eqb c old then new else c) (chars s).
Proof.
  unfold chars. induction s as [|c s IH]; [reflexivity|].
  cbn [str_replace String.list_ascii_of_string map]. now f_equal.
Qed.

Lemma str_replace_absent (old new : ascii) (s : string) :
  old <> new -> ~ In old (chars (str_replace old new s)).
Proof.
  intros Hne. induction s as [|c s IH]; [intros []|].
  cbn. intros [Hc|Hin]; [|now apply IH].
  destruct (Ascii.eqb_spec c old); congruence.
Qed.

Lemma str_replace_inj (old new : ascii) (s1 s2 : string) :
  ~ In new (chars s1) -> ~ In new (chars s2) ->
  str_replace old new s1 = str_replace old new s2 -> s1 = s2.
Proof.
  revert s2. induction s1 as [|c1 s1 IH]; intros [|c2 s2] H1 H2 Heq;
    try discriminate; [reflexivity|].
  cbn in H1, H2, Heq. injection Heq as Hc Hs.
  f_equal; [|apply IH; tauto].
  destruct (Ascii.eqb_spec c1 old), (Ascii.eqb_spec c2 old); subst; tauto.
Qed.

Lemma chars_get_csv_filename (name : string) (lowered : bool) :
  chars (get_csv_filename name lowered)
  = chars "individual-results/" ++ chars (str_replace " " "_" name)
    ++ chars (if lowered then "-Lowered" else "") ++ chars ".csv".
Proof. unfold get_csv_filename. now rewrite !chars_app, <- !app_assoc. Qed.

(** ** [get_csv_filename] *)

(** The name of a result file holds no space, whatever the name of the
    simulation. *)
Theorem get_csv_filename_no_space (name : string) (lowered : bool) :
  ~ In " "%char (chars (get_csv_filename name lowered)).
Proof.
  rewrite chars_get_csv_filename, !in_app_iff.
  intros [H|[H|[H|H]]].
  - cbn in H. repeat (destruct H as [H|H]; [discriminate H|]). exact H.
  - now apply (str_replace_absent " " "_" name).
  - destruct lowered; cbn in H;
      repeat (destruct H as [H|H]; [discriminate H|]); exact H.
  - cbn in H. repeat (destruct H as [H|H]; [discriminate H|]). exact H.
Qed.

Lemma get_csv_filename_same_flag_aux (name1 name2 : string) (lowered : bool) :
  get_csv_filename name1 lowered = get_csv_filename name2 lowered <->
  str_replace " " "_" name1 = str_replace " " "_" name2.
Proof.
  split.
  - intros Heq. apply (f_equal chars) in Heq.
    rewrite !chars_get_csv_filename in Heq.
    apply app_inv_head in Heq. rewrite !app_assoc in Heq.
    apply app_inv_tail in Heq. apply app_inv_tail in Heq.
    now apply chars_inj.
  - intros Heq. unfold get_csv_filename. now rewrite Heq.
Qed.

(** With the same flag, two simulations get the same result file exactly
    when their names are equal once spaces are replaced by underscores; so
    names without underscores get different files, while a name with a
    space and the same name with an underscore share one. *)
Theorem get_csv_filename_same_flag (name1 name2 : string) (lowered : bool) :
  (get_csv_filename name1 lowered = get_csv_filename name2 lowered <->
   str_replace " " "_" name1 = str_replace " " "_" name2) /\
  (~ In "_"%char (chars name1) -> ~ In "_"%char (chars name2) ->
   get_csv_filename name1 lowered = get_csv_filename name2 lowered ->
   name1 = name2).
Proof.
  split; [apply get_csv_filename_same_flag_aux|].
  intros H1 H2 Heq. apply (str_replace_inj " " "_"); [assumption..|].
  now apply (get_csv_filename_same_flag_aux name1 name2 lowered).
Qed.

(** A fully lowered program and a plain one get the same result file
    exactly when the name of the plain one is, up to spaces, the name of the
    lowered one followed by [-Lowered]; in particular the two files of one
    simulation differ. *)
Theorem get_csv_filename_lowered_vs_plain (name1 name2 : string) :
  (get_csv_filename name1 true = get_csv_filename name2 false <->
   str_replace " " "_" name2 = str_replace " " "_" name1 +:+ "-Lowered") /\
  get_csv_filename name1 true <> get_csv_filename name1 false.
Proof.
  assert (forall name, get_csv_filename name1 true = get_csv_filename name false <->
          str_replace " " "_" name = str_replace " " "_" name1 +:+ "-Lowered")
    as Hiff.
  { intros name. split.
    - intros Heq. apply (f_equal chars) in Heq.
      rewrite !chars_get_csv_filename in Heq.
      apply app_inv_head in Heq. rewrite !app_assoc in Heq.
      apply app_inv_tail in Heq. cbn [chars String.list_ascii_of_string] in Heq.
      rewrite app_nil_r in Heq.
      apply chars_inj. rewrite chars_app. now rewrite <- Heq.
    - intros Heq. unfold get_csv_filename. rewrite Heq. cbn [String.append].
      apply chars_inj. rewrite !chars_app, <- !app_assoc. cbn [chars].
      reflexivity. }
  split; [apply Hiff|].
  intros Heq. apply Hiff in Heq. apply (f_equal (fun s => length (chars s))) in Heq.
  rewrite chars_app, length_app in Heq. cbn in Heq. lia.
Qed.

(** ** [process_data] *)

Lemma get_csv_filename_inj_replaced (lowered : bool) (name1 name2 : string) :
  get_csv_filename name1 lowered = get_csv_filename name2 lowered ->
  str_replace " " "_" name1 = str_replace " " "_" name2.
Proof. apply (proj1 (get_csv_filename_same_flag_aux name1 name2 lowered)). Qed.

Lemma process_data_files (dataset : list (string * string)) (lowered : bool)
    (path script : string) (sim_num : Z) :
  map (fun argv : list string => argv !! 3%nat)
    (process_data dataset lowered path script sim_num)
  = map (fun entry => Some (get_csv_filename (fst entry) lowered)) dataset.
Proof.
  unfold process_data. rewrite map_map. apply map_ext. now intros [name program].
Qed.

(** Entries of the dataset whose names differ, also after spaces are
    replaced by underscores, are given different result files: every
    subprocess of [process_data] has five arguments, and the fourth ones are
    all different. *)
Theorem process_data_distinct_files (dataset : list (string * string))
    (lowered : bool) (path script : string) (sim_num : Z) :
  NoDup (map (fun entry => str_replace " " "_" (fst entry)) dataset) ->
  Forall (fun argv : list string => length argv = 5%nat)
    (process_data dataset lowered path script sim_num) /\
  NoDup (map (fun argv : list string => argv !! 3%nat)
           (process_data dataset lowered path script sim_num)).
Proof.
  intros Hnames. split.
  - unfold process_data.
    induction dataset as [|[name program] dataset IH]; constructor; auto.
    apply IH. cbn [map] in Hnames. now apply NoDup_cons in Hnames as [_ ?].
  - rewrite process_data_files.
    induction dataset as [|[name program] dataset IH]; [constructor|].
    cbn [map fst] in *. apply NoDup_cons in Hnames as [Hnew Hrest].
    apply NoDup_cons. split; [|now apply IH].
    intros Hin. apply Hnew.
    apply list_elem_of_In, in_map_iff in Hin as ([name' program'] & Heq & Hin).
    apply list_elem_of_In, in_map_iff. exists (name', program'). split; [|exact Hin].
    cbn [fst] in *. apply (get_csv_filename_inj_replaced lowered). congruence.
Qed.

Lemma process_data_distinct_files_witness :
  NoDup (map (fun argv : list string => argv !! 3%nat)
           (process_data (datasets ++ lenet) false "benchmarks/" "scripts/evaluate.sh" 10)).
Proof.
  apply (process_data_distinct_files (datasets ++ lenet) false).
  apply (bool_decide_unpack _). vm_compute. exact I.
Defined.

(** ** Splitting at a character *)

Lemma str_split_nonempty (sep : ascii) (s : string) : str_split sep s <> [].
Proof.
  destruct s as [|c s]; cbn [str_split]; [discriminate|].
  destruct (Ascii.eqb c sep); [discriminate|].
  destruct (str_split sep s); discriminate.
Qed.

Lemma str_split_one (sep : ascii) (s a : string) :
  str_split sep s = [a] <-> s = a /\ ~ In sep (chars s).
Proof.
  revert a. induction s as [|c s IH]; intros a; cbn [str_split].
  - split; [intros [= <-]; split; [reflexivity|intros []]|intros [<- _]; reflexivity].
  - unfold chars. cbn [String.list_ascii_of_string In]. fold (chars s).
    destruct (Ascii.eqb_spec c sep) as [->|Hne].
    + split; [|tauto]. intros [= <- Hnil]. now apply str_split_nonempty in Hnil.
    + destruct (str_split sep s) as [|p ps] eqn:Hs;
        [now apply str_split_nonempty in Hs|].
      split.
      * intros [= <- ->]. destruct (proj1 (IH p) eq_refl) as [-> Hno].
        split; [reflexivity|]. intros [Hc|Hin]; [congruence|tauto].
      * intros [<- Hno].
        assert (p :: ps = [s]) as Hps by (apply IH; tauto).
        now injection Hps as -> ->.
Qed.

Lemma str_split_two (sep : ascii) (s a b : string) :
  str_split sep s = [a; b] <->
  s = a +:+ String sep b /\ ~ In sep (chars a) /\ ~ In sep (chars b).
Proof.
  revert a. induction s as [|c s IH]; intros a; cbn [str_split].
  - split; [discriminate|]. intros [Heq _]. now destruct a.
  - destruct (Ascii.eqb_spec c sep) as [->|Hne].
    + split.
      * intros [= <- Hs]. apply str_split_one in Hs as [-> Hno].
        split; [reflexivity|]. split; [intros []|exact Hno].
      * intros (Heq & Ha & Hb). destruct a as [|c' a].
        -- cbn in Heq. injection Heq as ->.
           now rewrite (proj2 (str_split_one sep b b)).
        -- cbn in Heq. injection Heq as <- _. exfalso. apply Ha. now left.
    + destruct (str_split sep s) as [|p ps] eqn:Hs;
        [now apply str_split_nonempty in Hs|].
      split.
      * intros [= <- ->]. destruct (proj1 (IH p) eq_refl) as (-> & Hp & Hb).
        split; [reflexivity|]. split; [|exact Hb].
        unfold chars. cbn [String.list_ascii_of_string In]. fold (chars p).
        intros [Hc|Hin]; [congruence|tauto].
      * intros (Heq & Ha & Hb). destruct a as [|c' a].
        -- cbn in Heq. injection Heq as -> _. congruence.
        -- change (String c' a +:+ String sep b)
             with (String c' (a +:+ String sep b)) in Heq.
           injection Heq as <- ->.
           unfold chars in Ha. cbn [String.list_ascii_of_string In] in Ha.
           fold (chars a) in Ha.
           assert (p :: ps = [a; b]) as Hps by (apply IH; tauto).
           now injection Hps as -> ->.
Qed.

(** ** The rows of a result file *)

Section GatherFacts.

Context {T : Type} (float : string -> option T).

(** The rows that [gather_data] accepts are those of two fields, the first
    one a stage and a step with exactly one dot between them, the second one
    a time that [float] converts.  A row that has not two fields fails the
    assertion; this includes rows of three fields such as
    [icarus-verilog,simulate,0.126]. *)
Theorem parse_row_cases (row : list string) (stage step : string) (t : T) :
  (parse_row float row = Ok (stage, step, t) <->
   exists time,
     row = [stage +:+ String "." step; time] /\
     ~ In "."%char (chars stage) /\ ~ In "."%char (chars step) /\
     float time = Some t) /\
  (parse_row float row = Raise AssertionError <-> length row <> 2%nat).
Proof.
  split.
  - split.
    + destruct row as [|stage_step [|time [|? ?]]]; cbn [parse_row]; try discriminate.
      destruct (str_split "." stage_step) as [|a [|b [|? ?]]] eqn:Hsplit;
        try discriminate.
      destruct (float time) as [t'|] eqn:Hfloat; [|discriminate].
      intros [= <- <- <-]. apply str_split_two in Hsplit as (-> & Ha & Hb).
      exists time. auto.
    + intros (time & -> & Ha & Hb & Hfloat). cbn [parse_row].
      rewrite (proj2 (str_split_two "." _ stage step)) by auto.
      now rewrite Hfloat.
  - destruct row as [|stage_step [|time [|? ?]]]; cbn [parse_row length];
      try (split; [intros _; lia|reflexivity]).
    split; [|intros H; exfalso; apply H; reflexivity].
    destruct (str_split "." stage_step) as [|a [|b [|? ?]]]; try discriminate.
    destruct (float time); discriminate.
Qed.

End GatherFacts.

(** ** Dictionaries *)

Lemma dict_get_set_eq {V : Type} (k : string) (v : V) (d : list (string * V)) :
  dict_get k (dict_set k v d) = Some v.
Proof.
  induction d as [|[k' v'] d IH]; cbn [dict_set dict_get].
  - now rewrite String.eqb_refl.
  - destruct (String.eqb k k') eqn:Hk; cbn [dict_get]; now rewrite Hk.
Qed.

Lemma dict_get_set_ne {V : Type} (k k' : string) (v : V) (d : list (string * V)) :
  k <> k' -> dict_get k' (dict_set k v d) = dict_get k' d.
Proof.
  intros Hne. induction d as [|[k0 v0] d IH]; cbn [dict_set dict_get].
  - now rewrite (proj2 (String.eqb_neq k' k)) by congruence.
  - destruct (String.eqb_spec k k0) as [->|Hk]; cbn [dict_get].
    + now rewrite (proj2 (String.eqb_neq k' k0)) by congruence.
    + now rewrite IH.
Qed.

Lemma dict_get_append_eq {T : Type} (k : string) (t : T) (d : list (string * list T)) :
  dict_get k (dd_append k t d) = Some (default [] (dict_get k d) ++ [t]).
Proof.
  induction d as [|[k' ts] d IH]; cbn [dd_append dict_get].
  - now rewrite String.eqb_refl.
  - destruct (String.eqb k k') eqn:Hk; cbn [dict_get]; now rewrite Hk.
Qed.

Lemma dict_get_append_ne {T : Type} (k k' : string) (t : T) (d : list (string * list T)) :
  k <> k' -> dict_get k' (dd_append k t d) = dict_get k' d.
Proof.
  intros Hne. induction d as [|[k0 ts] d IH]; cbn [dd_append dict_get].
  - now rewrite (proj2 (String.eqb_neq k' k)) by congruence.
  - destruct (String.eqb_spec k k0) as [->|Hk]; cbn [dict_get].
    + now rewrite (proj2 (String.eqb_neq k' k0)) by congruence.
    + now rewrite IH.
Qed.

Lemma dd_append_keys {T : Type} (k : string) (t : T) (d : list (string * list T)) :
  map fst (dd_append k t d) = map fst d \/
  (~ In k (map fst d) /\ map fst (dd_append k t d) = map fst d ++ [k]).
Proof.
  induction d as [|[k' ts] d IH]; cbn [dd_append map fst].
  - right. split; [intros []|reflexivity].
  - destruct (String.eqb_spec k k') as [->|Hk]; cbn [map fst]; [now left|].
    destruct IH as [->|[Hnew ->]]; [now left|right].
    split; [|reflexivity]. cbn [In]. intros [Heq|Hin]; [congruence|tauto].
Qed.

Lemma dd_append_NoDup {T : Type} (k : string) (t : T) (d : list (string * list T)) :
  NoDup (map fst d) -> NoDup (map fst (dd_append k t d)).
Proof.
  intros Hd. destruct (dd_append_keys k t d) as [->|[Hnew ->]]; [exact Hd|].
  apply NoDup_app. split; [exact Hd|]. split; [|apply NoDup_singleton].
  intros x Hx Hk. apply list_elem_of_singleton in Hk as ->.
  apply Hnew. now apply list_elem_of_In.
Qed.

Lemma dd_append_nonempty {T : Type} (k : string) (t : T) (d : list (string * list T)) :
  Forall (fun entry => snd entry <> []) d ->
  Forall (fun entry => snd entry <> []) (dd_append k t d).
Proof.
  induction 1 as [|[k' ts] d Hts Hd IH]; cbn [dd_append].
  - constructor; [discriminate|constructor].
  - destruct (String.eqb k k'); constructor; auto.
    cbn [snd]. destruct ts; discriminate.
Qed.

(** The number of times held by a dictionary of lists. *)
Lemma dd_append_total {T : Type} (k : string) (t : T) (d : list (string * list T)) :
  sum_list_with (fun entry => length (snd entry)) (dd_append k t d)
  = S (sum_list_with (fun entry => length (snd entry)) d).
Proof.
  induction d as [|[k' ts] d IH]; cbn [dd_append sum_list_with snd]; [reflexivity|].
  destruct (String.eqb k k'); cbn [sum_list_with snd].
  - rewrite length_app. cbn [length]. lia.
  - rewrite IH. lia.
Qed.

(** ** [gather_data]: the rows of one file *)

Section GatherRows.

Context {T : Type} (float : string -> option T).

Lemma gather_row_ok (row : list string) (sim comp : list (string * list T))
    (res : list (string * list T) * list (string * list T)) :
  gather_row float row (sim, comp) = Ok res ->
  exists stage step t,
    parse_row float row = Ok (stage, step, t) /\
    res = if str_in "compile" step then (sim, dd_append stage t comp)
          else (dd_append stage t sim, comp).
Proof.
  unfold gather_row. destruct (parse_row float row) as [[[stage step] t]|e];
    [|discriminate].
  intros Hres. exists stage, step, t. split; [reflexivity|].
  destruct (str_in "compile" step); cbn [negb] in Hres; congruence.
Qed.

Lemma gather_row_raise (row : list string)
    (acc : list (string * list T) * list (string * list T)) (e : py_error) :
  gather_row float row acc = Raise e <-> parse_row float row = Raise e.
Proof.
  unfold gather_row. destruct (parse_row float row) as [[[stage step] t]|e'].
  - destruct acc as [sim comp]. destruct (negb (str_in "compile" step));
      split; discriminate.
  - split; intros [= ->]; reflexivity.
Qed.

Lemma gather_rows_lookup (rows : list (list string)) :
  forall sim comp sim' comp',
    gather_rows float rows (sim, comp) = Ok (sim', comp') ->
    exists parsed,
      Forall2 (fun row p => parse_row float row = Ok p) rows parsed /\
      forall stage,
        default [] (dict_get stage sim')
        = default [] (dict_get stage sim) ++ times_of stage false parsed /\
        default [] (dict_get stage comp')
        = default [] (dict_get stage comp) ++ times_of stage true parsed.
Proof.
  induction rows as [|row rows IH]; intros sim comp sim' comp' Hrun.
  - injection Hrun as <- <-. exists []. split; [constructor|].
    intros stage. cbn [times_of]. now rewrite !app_nil_r.
  - cbn [gather_rows] in Hrun.
    destruct (gather_row float row (sim, comp)) as [[sim1 comp1]|e] eqn:Hrow;
      [|discriminate].
    apply gather_row_ok in Hrow as (st & sp & t & Hparse & Hres).
    destruct (IH _ _ _ _ Hrun) as (parsed & Hall & Hlook).
    exists ((st, sp, t) :: parsed). split; [now constructor|].
    intros stage. destruct (Hlook stage) as [Hs Hc]. rewrite Hs, Hc.
    cbn [times_of].
    destruct (String.eqb_spec stage st) as [->|Hne];
      destruct (str_in "compile" sp); injection Hres as -> ->;
      cbn [andb Bool.eqb];
      rewrite ?dict_get_append_eq, ?dict_get_append_ne by congruence;
      cbn [default from_option]; unfold id; rewrite <- ?app_assoc; auto.
Qed.

Lemma gather_rows_keeps (rows : list (list string)) :
  forall sim comp sim' comp',
    gather_rows float rows (sim, comp) = Ok (sim', comp') ->
    (NoDup (map fst sim) -> NoDup (map fst sim')) /\
    (NoDup (map fst comp) -> NoDup (map fst comp')) /\
    (Forall (fun entry => snd entry <> []) sim ->
     Forall (fun entry => snd entry <> []) sim') /\
    (Forall (fun entry => snd entry <> []) comp ->
     Forall (fun entry => snd entry <> []) comp') /\
    (sum_list_with (fun entry => length (snd entry)) sim'
     + sum_list_with (fun entry => length (snd entry)) comp'
     = sum_list_with (fun entry => length (snd entry)) sim
       + sum_list_with (fun entry => length (snd entry)) comp
       + length rows)%nat.
Proof.
  induction rows as [|row rows IH]; intros sim comp sim' comp' Hrun.
  - injection Hrun as <- <-. cbn [length]. repeat split; auto; lia.
  - cbn [gather_rows] in Hrun.
    destruct (gather_row float row (sim, comp)) as [[sim1 comp1]|e] eqn:Hrow;
      [|discriminate].
    apply gather_row_ok in Hrow as (st & sp & t & _ & Hres).
    destruct (IH _ _ _ _ Hrun) as (H1 & H2 & H3 & H4 & H5).
    rewrite H5. cbn [length].
    destruct (str_in "compile" sp); injection Hres as -> ->;
      rewrite dd_append_total;
      (repeat split; [..|lia]); intros H;
      auto using dd_append_NoDup, dd_append_nonempty.
Qed.

Lemma dict_get_In {V : Type} (k : string) (v : V) (d : list (string * V)) :
  dict_get k d = Some v -> In (k, v) d.
Proof.
  induction d as [|[k' v'] d IH]; cbn [dict_get]; [discriminate|].
  destruct (String.eqb_spec k k') as [->|Hne].
  - intros [= ->]. now left.
  - intros H. right. now apply IH.
Qed.

Lemma dict_get_times (stage : string) (d : list (string * list T)) (times : list T) :
  Forall (fun entry => snd entry <> []) d ->
  default [] (dict_get stage d) = times ->
  dict_get stage d = match times with [] => None | t :: ts => Some (t :: ts) end.
Proof.
  intros Hd Hget. destruct (dict_get stage d) as [ts|] eqn:Hlook.
  - cbn [default from_option] in Hget. unfold id in Hget. subst ts.
    apply dict_get_In in Hlook. rewrite List.Forall_forall in Hd.
    specialize (Hd _ Hlook). cbn [snd] in Hd. now destruct times.
  - cbn [default from_option] in Hget. now subst times.
Qed.

(** What [gather_data] collects from one file: for every stage, the times
    of the rows of that stage in the order of the file, those of the steps
    whose name holds [compile] under the compilation times and the others
    under the simulation times.  A stage without rows of a kind has no entry
    there. *)
Theorem gather_rows_by_stage (rows : list (list string))
    (simtimes comptimes : list (string * list T)) :
  gather_rows float rows ([], []) = Ok (simtimes, comptimes) ->
  exists parsed,
    Forall2 (fun row p => parse_row float row = Ok p) rows parsed /\
    forall stage,
      dict_get stage simtimes
      = match times_of stage false parsed with
        | [] => None
        | t :: ts => Some (t :: ts)
        end /\
      dict_get stage comptimes
      = match times_of stage true parsed with
        | [] => None
        | t :: ts => Some (t :: ts)
        end.
Proof.
  intros Hrun. destruct (gather_rows_lookup _ _ _ _ _ Hrun) as (parsed & Hall & Hlook).
  destruct (gather_rows_keeps _ _ _ _ _ Hrun) as (_ & _ & Hsim & Hcomp & _).
  exists parsed. split; [exact Hall|]. intros stage.
  destruct (Hlook stage) as [Hs Hc]. cbn [dict_get default from_option] in Hs, Hc.
  split; apply dict_get_times; auto.
Qed.

(** What [gather_data] collects from one file is well formed: a stage is
    listed once, a listed stage has at least one time, and the times listed
    are as many as the rows of the file. *)
Theorem gather_rows_well_formed (rows : list (list string))
    (simtimes comptimes : list (string * list T)) :
  gather_rows float rows ([], []) = Ok (simtimes, comptimes) ->
  NoDup (map fst simtimes) /\ NoDup (map fst comptimes) /\
  Forall (fun entry => snd entry <> []) simtimes /\
  Forall (fun entry => snd entry <> []) comptimes /\
  (sum_list_with (fun entry => length (snd entry)) simtimes
   + sum_list_with (fun entry => length (snd entry)) comptimes
   = length rows)%nat.
Proof.
  intros Hrun. destruct (gather_rows_keeps _ _ _ _ _ Hrun) as (H1 & H2 & H3 & H4 & H5).
  repeat split.
  - apply H1. constructor.
  - apply H2. constructor.
  - apply H3. constructor.
  - apply H4. constructor.
  - exact H5.
Qed.

Lemma gather_rows_ok_iff (rows : list (list string)) :
  forall acc,
    (exists res, gather_rows float rows acc = Ok res) <->
    Forall (fun row => exists p, parse_row float row = Ok p) rows.
Proof.
  induction rows as [|row rows IH]; intros acc; cbn [gather_rows].
  - split; [constructor|]. intros _. now exists acc.
  - destruct (gather_row float row acc) as [acc'|e] eqn:Hrow.
    + rewrite IH. destruct acc as [sim comp].
      apply gather_row_ok in Hrow as (st & sp & t & Hparse & _).
      split; [intros H; constructor; eauto|]. intros H. now apply Forall_cons in H as [_ H].
    + apply gather_row_raise in Hrow. split; [intros [res Hres]; discriminate|].
      intros H. apply Forall_cons in H as [[p Hp] _]. congruence.
Qed.

(** The first row that is not accepted decides how [gather_data] ends on a
    file: with the exception of that row, whatever follows it. *)
Theorem gather_rows_first_error (before after : list (list string))
    (row : list string) (e : py_error)
    (acc : list (string * list T) * list (string * list T)) :
  Forall (fun row' => exists p, parse_row float row' = Ok p) before ->
  parse_row float row = Raise e ->
  gather_rows float (before ++ row :: after) acc = Raise e.
Proof.
  revert acc. induction before as [|row' before IH]; intros acc Hbefore Hrow.
  - cbn [app gather_rows]. now rewrite (proj2 (gather_row_raise row acc e)).
  - apply Forall_cons in Hbefore as [[p Hp] Hbefore].
    cbn [app gather_rows].
    destruct (gather_row float row' acc) as [acc'|e'] eqn:Hrow'.
    + now apply IH.
    + apply gather_row_raise in Hrow'. congruence.
Qed.

End GatherRows.

(** ** [gather_data]: the files of a dataset *)

Section GatherData.

Context {T : Type} (float : string -> option T).

Lemma gather_loop_lookup (lowered : bool) (files : string -> option (list (list string)))
    (dataset : list (string * string)) :
  forall acc res,
    gather_loop float dataset lowered files acc = Ok res ->
    (forall name, In name (map fst dataset) ->
       exists rows simtimes comptimes,
         files (get_csv_filename name lowered) = Some rows /\
         gather_rows float rows ([], []) = Ok (simtimes, comptimes) /\
         dict_get name (fst res) = Some simtimes /\
         dict_get name (snd res) = Some comptimes) /\
    (forall name, ~ In name (map fst dataset) ->
       dict_get name (fst res) = dict_get name (fst acc) /\
       dict_get name (snd res) = dict_get name (snd acc)).
Proof.
  induction dataset as [|[name0 program0] dataset IH]; intros acc res Hrun.
  - injection Hrun as <-. split; [intros name []|auto].
  - cbn [gather_loop] in Hrun.
    destruct (files (get_csv_filename name0 lowered)) as [rows|] eqn:Hfile;
      [|discriminate].
    destruct (gather_rows float rows ([], [])) as [[sim comp]|e] eqn:Hrows;
      [|discriminate].
    destruct (IH _ _ Hrun) as [Hin Hout]. cbn [fst snd] in Hout. split.
    + intros name Hname.
      destruct (in_dec String.string_dec name (map fst dataset)) as [Hlater|Hlast];
        [now apply Hin|].
      destruct Hname as [<-|Hname]; [|contradiction].
      cbn [fst] in *. exists rows, sim, comp.
      destruct (Hout name0 Hlast) as [-> ->].
      now rewrite !dict_get_set_eq.
    + intros name Hname. cbn [map fst In] in Hname.
      destruct (Hout name) as [-> ->]; [tauto|].
      rewrite !dict_get_set_ne by (intros ->; tauto). auto.
Qed.

Lemma gather_loop_ok_iff (lowered : bool) (files : string -> option (list (list string)))
    (dataset : list (string * string)) :
  forall acc,
    (exists res, gather_loop float dataset lowered files acc = Ok res) <->
    Forall (fun entry =>
              exists rows, files (get_csv_filename (fst entry) lowered) = Some rows /\
                Forall (fun row => exists p, parse_row float row = Ok p) rows)
      dataset.
Proof.
  induction dataset as [|[name0 program0] dataset IH]; intros acc; cbn [gather_loop].
  - split; [constructor|]. intros _. now exists acc.
  - rewrite Forall_cons. cbn [fst].
    destruct (files (get_csv_filename name0 lowered)) as [rows|] eqn:Hfile.
    + destruct (gather_rows float rows ([], [])) as [[sim comp]|e] eqn:Hrows.
      * rewrite IH. split; [|tauto]. intros H. split; [|exact H].
        exists rows. split; [reflexivity|].
        apply (gather_rows_ok_iff float rows ([], [])). eauto.
      * split; [intros [res Hres]; discriminate|].
        intros [(rows' & [= <-] & Hall) _].
        apply (gather_rows_ok_iff float rows ([], [])) in Hall as [res Hres].
        congruence.
    + split; [intros [res Hres]; discriminate|].
      intros [(rows' & Hrows' & _) _]. discriminate.
Qed.

(** What [gather_data] returns: under the name of every simulation of the
    dataset, the simulation times and the compilation times gathered from
    the result file of that simulation. *)
Theorem gather_data_by_name (dataset : list (string * string)) (lowered : bool)
    (files : string -> option (list (list string)))
    (simulations compilations : list (string * list (string * list T)))
    (name program : string) :
  gather_data float dataset lowered files = Ok (simulations, compilations) ->
  In (name, program) dataset ->
  exists rows simtimes comptimes,
    files (get_csv_filename name lowered) = Some rows /\
    gather_rows float rows ([], []) = Ok (simtimes, comptimes) /\
    dict_get name simulations = Some simtimes /\
    dict_get name compilations = Some comptimes.
Proof.
  intros Hrun Hin.
  destruct (gather_loop_lookup _ _ _ _ _ Hrun) as [Hlook _].
  apply (Hlook name). apply in_map_iff. now exists (name, program).
Qed.

(** [gather_data] after [process_data], as in [run]: it returns, without an
    exception, exactly when every result file that [process_data] names to a
    subprocess, as its fourth argument, is there and holds accepted rows
    only. *)
Theorem gather_data_after_process_data (dataset : list (string * string))
    (lowered : bool) (path script : string) (sim_num : Z)
    (files : string -> option (list (list string))) :
  (exists res, gather_data float dataset lowered files = Ok res) <->
  (forall argv, In argv (process_data dataset lowered path script sim_num) ->
     exists file rows,
       argv !! 3%nat = Some file /\ files file = Some rows /\
       Forall (fun row => exists p, parse_row float row = Ok p) rows).
Proof.
  unfold gather_data. rewrite gather_loop_ok_iff, List.Forall_forall. split.
  - intros Hall argv Hargv. unfold process_data in Hargv.
    apply in_map_iff in Hargv as ([name program] & <- & Hin).
    destruct (Hall _ Hin) as (rows & Hfile & Hrows).
    exists (get_csv_filename name lowered), rows. auto.
  - intros Hall [name program] Hin.
    destruct (Hall [script; path +:+ program; (path +:+ program) +:+ ".data";
                    get_csv_filename name lowered; pretty sim_num])
      as (file & rows & [= <-] & Hfile & Hrows).
    { unfold process_data. apply in_map_iff. now exists (name, program). }
    exists rows. auto.
Qed.

End GatherData.

(** ** [write_to_file] *)

Lemma str_append_assoc (s1 s2 s3 : string) : (s1 +:+ s2) +:+ s3 = s1 +:+ (s2 +:+ s3).
Proof. apply chars_inj. now rewrite !chars_app, app_assoc. Qed.

Lemma str_append_empty_r (s : string) : s +:+ "" = s.
Proof. apply chars_inj. rewrite chars_app. apply app_nil_r. Qed.

Lemma str_join_snoc (sep : string) (parts : list string) (a b : string)
    (rest : list string) :
  str_join sep (parts ++ [a +:+ b] ++ rest)
  = str_join sep (parts ++ [a]) +:+ str_join sep (b :: rest).
Proof.
  induction parts as [|p parts IH].
  - cbn [app str_join]. destruct rest as [|r rest]; [reflexivity|].
    now rewrite str_append_assoc.
  - change ((p :: parts) ++ [a +:+ b] ++ rest) with (p :: (parts ++ [a +:+ b] ++ rest)).
    change ((p :: parts) ++ [a]) with (p :: (parts ++ [a])).
    cbn [str_join].
    destruct (parts ++ [a +:+ b] ++ rest) as [|x xs] eqn:Hx;
      [now destruct parts|].
    destruct (parts ++ [a]) as [|y ys] eqn:Hy; [now destruct parts|].
    now rewrite IH, !str_append_assoc.
Qed.

(** Two calls of [write_to_file] do not put a line break between their
    data: the last line of the first call and the first line of the second
    become one line, as if the two had been given to one call as one
    element. *)
Theorem write_to_file_twice (first : list string) (last_line first_line : string)
    (second : list string) (content : string) :
  write_to_file (first_line :: second) (write_to_file (first ++ [last_line]) content)
  = write_to_file (first ++ [last_line +:+ first_line] ++ second) content.
Proof.
  unfold write_to_file. now rewrite str_join_snoc, str_append_assoc.
Qed.

(** ** The sample result file *)

Lemma gather_rows_by_stage_witness :
  exists parsed,
    Forall2 (fun row p => parse_row float_as_text row = Ok p) sample_rows parsed /\
    forall stage,
      dict_get stage [("icarus-verilog", ["0.126"; "0.130"]); ("verilog", ["0.2"])]
      = match times_of stage false parsed with
        | [] => None
        | t :: ts => Some (t :: ts)
        end /\
      dict_get stage [("verilog", ["1.5"])]
      = match times_of stage true parsed with
        | [] => None
        | t :: ts => Some (t :: ts)
        end.
Proof.
  apply (gather_rows_by_stage float_as_text sample_rows). reflexivity.
Defined.

Lemma gather_rows_well_formed_witness :
  NoDup (map fst [("icarus-verilog", ["0.126"; "0.130"]); ("verilog", ["0.2"])]) /\
  NoDup (map fst [("verilog", ["1.5"])]) /\
  Forall (fun entry : string * list string => snd entry <> [])
    [("icarus-verilog", ["0.126"; "0.130"]); ("verilog", ["0.2"])] /\
  Forall (fun entry : string * list string => snd entry <> []) [("verilog", ["1.5"])] /\
  (sum_list_with (fun entry : string * list string => length (snd entry))
     [("icarus-verilog", ["0.126"; "0.130"]); ("verilog", ["0.2"])]
   + sum_list_with (fun entry : string * list string => length (snd entry))
       [("verilog", ["1.5"])]
   = length sample_rows)%nat.
Proof.
  apply (gather_rows_well_formed float_as_text sample_rows). reflexivity.
Defined.

Lemma gather_rows_first_error_witness :
  gather_rows float_as_text
    (sample_rows ++ ["icarus-verilog"; "simulate"; "0.126"] :: sample_rows) ([], [])
  = Raise AssertionError.
Proof.
  apply (gather_rows_first_error float_as_text sample_rows sample_rows).
  - apply (gather_rows_ok_iff float_as_text sample_rows ([], [])).
    eexists. reflexivity.
  - reflexivity.
Defined.

Lemma gather_data_by_name_witness :
  exists rows simtimes comptimes,
    sample_files (get_csv_filename "NTT 32" false) = Some rows /\
    gather_rows float_as_text rows ([], []) = Ok (simtimes, comptimes) /\
    dict_get "NTT 32"
      [("NTT 32", [("icarus-verilog", ["0.126"; "0.130"]); ("verilog", ["0.2"])])]
    = Some simtimes /\
    dict_get "NTT 32" [("NTT 32", [("verilog", ["1.5"])])] = Some comptimes.
Proof.
  apply (gather_data_by_name float_as_text [("NTT 32", "ntt-32.futil")] false
           sample_files _ _ "NTT 32" "ntt-32.futil").
  - reflexivity.
  - now left.
Defined.
